(** * Baggage header engine of [packages/utils/src/baggage.ts]

    A shallow embedding of the baggage module (model, parser, serializer and
    merge) together with the parts of the JavaScript runtime it calls:
    strings as sequences of UTF-16 code units, [String.prototype.split],
    the anchored prefix test, [encodeURIComponent] / [decodeURIComponent]
    with their [URIError], and plain objects with the key order that
    [Object.keys] reports. *)

From Stdlib Require Import NArith List String Ascii Bool Lia.
Import ListNotations.

Local Open Scope N_scope.

(** ** The JavaScript runtime the module relies on *)

Module JS.

(** A string is the list of its UTF-16 code units; a code unit is a natural
    number below [2^16].  Nothing below needs the bound, so every result
    proved for all lists holds for every JavaScript string. *)
Definition code_unit := N.
Definition jsstring := list code_unit.

(** String literals of the source, read as code units. *)
Definition js (s : string) : jsstring :=
  map N_of_ascii (list_ascii_of_string s).

Definition str_eqb (a b : jsstring) : bool :=
  if list_eq_dec N.eq_dec a b then true else false.

(** [s === ''] *)
Definition is_empty (s : jsstring) : bool :=
  match s with [] => true | _ => false end.

(** [s.length] *)
Definition str_length (s : jsstring) : N := N.of_nat (List.length s).

(** *** Exceptions *)

Inductive error : Type := URIError.

Inductive result (A : Type) : Type :=
| Ok (a : A)
| Throw (e : error).
Arguments Ok {A} a.
Arguments Throw {A} e.

Definition bind {A B} (m : result A) (k : A -> result B) : result B :=
  match m with
  | Ok a => k a
  | Throw e => Throw e
  end.

Definition fmap {A B} (f : A -> B) (m : result A) : result B :=
  bind m (fun a => Ok (f a)).

(** [Array.prototype.reduce] with a callback that may throw: the first
    exception aborts the whole reduction. *)
Fixpoint reduce {A B} (f : A -> B -> result A) (l : list B) (init : A)
  : result A :=
  match l with
  | [] => Ok init
  | x :: l' => bind (f init x) (reduce f l')
  end.

(** *** [undefined] and [ToString] *)

(** A value that is either a string or [undefined]. *)
Definition value := option jsstring.

Definition to_string (v : value) : jsstring :=
  match v with
  | Some s => s
  | None => js "undefined"
  end.

(** *** [String.prototype.split] with a one-character separator, and
    [Array.prototype.join] *)

Fixpoint split (sep : code_unit) (s : jsstring) : list jsstring :=
  match s with
  | [] => [[]]
  | c :: r =>
      if c =? sep then [] :: split sep r
      else match split sep r with
           | w :: ws => (c :: w) :: ws
           | [] => [[c]]
           end
  end.

Fixpoint join (sep : code_unit) (l : list jsstring) : jsstring :=
  match l with
  | [] => []
  | [w] => w
  | w :: ws => w ++ sep :: join sep ws
  end.

(** *** A regular expression [/^p/] for a literal [p]: [test] *)

Fixpoint starts_with (p s : jsstring) : bool :=
  match p, s with
  | [], _ => true
  | a :: p', b :: s' => (a =? b) && starts_with p' s'
  | _ :: _, [] => false
  end.

(** *** [encodeURIComponent] *)

Definition in_range (lo hi c : N) : bool := (lo <=? c) && (c <=? hi).

(** uriUnreserved: letters, digits and [- _ . ! ~ * ' ( )]. *)
Definition uri_unescaped (c : code_unit) : bool :=
  in_range 65 90 c || in_range 97 122 c || in_range 48 57 c
  || existsb (N.eqb c) (js "-_.!~*'()").

Definition is_lead_surrogate (c : code_unit) : bool := in_range 0xD800 0xDBFF c.
Definition is_trail_surrogate (c : code_unit) : bool := in_range 0xDC00 0xDFFF c.

Definition surrogate_pair_to_code_point (lead trail : code_unit) : N :=
  N.shiftl (lead - 0xD800) 10 + (trail - 0xDC00) + 0x10000.

Definition utf8_encode (cp : N) : list N :=
  if cp <? 0x80 then [cp]
  else if cp <? 0x800 then
    [N.lor 0xC0 (N.shiftr cp 6); N.lor 0x80 (N.land cp 0x3F)]
  else if cp <? 0x10000 then
    [N.lor 0xE0 (N.shiftr cp 12);
     N.lor 0x80 (N.land (N.shiftr cp 6) 0x3F);
     N.lor 0x80 (N.land cp 0x3F)]
  else
    [N.lor 0xF0 (N.shiftr cp 18);
     N.lor 0x80 (N.land (N.shiftr cp 12) 0x3F);
     N.lor 0x80 (N.land (N.shiftr cp 6) 0x3F);
     N.lor 0x80 (N.land cp 0x3F)].

Definition percent : code_unit := 37.

(** One upper-case hexadecimal digit. *)
Definition hex_digit (n : N) : code_unit :=
  if n <? 10 then 48 + n else 55 + n.

Definition percent_octet (b : N) : jsstring :=
  [percent; hex_digit (N.shiftr b 4); hex_digit (N.land b 0xF)].

Definition percent_octets (bs : list N) : jsstring :=
  flat_map percent_octet bs.

(** The abstract operation Encode with the unescaped set of
    [encodeURIComponent]; an unpaired surrogate throws. *)
Fixpoint encodeURIComponent (s : jsstring) : result jsstring :=
  match s with
  | [] => Ok []
  | c :: r =>
      if uri_unescaped c then fmap (cons c) (encodeURIComponent r)
      else if is_trail_surrogate c then Throw URIError
      else if is_lead_surrogate c then
        match r with
        | d :: r' =>
            if is_trail_surrogate d then
              fmap (app (percent_octets
                           (utf8_encode (surrogate_pair_to_code_point c d))))
                   (encodeURIComponent r')
            else Throw URIError
        | [] => Throw URIError
        end
      else fmap (app (percent_octets (utf8_encode c))) (encodeURIComponent r)
  end.

(** *** [decodeURIComponent] *)

Definition hex_value (c : code_unit) : option N :=
  if in_range 48 57 c then Some (c - 48)
  else if in_range 65 70 c then Some (c - 55)
  else if in_range 97 102 c then Some (c - 87)
  else None.

(** The octet written as [%XY], when [p] is the percent sign and [x], [y]
    are hexadecimal digits. *)
Definition escaped_octet (p x y : code_unit) : option N :=
  if p =? percent then
    match hex_value x, hex_value y with
    | Some a, Some b => Some (16 * a + b)
    | _, _ => None
    end
  else None.

Definition is_continuation (b : N) : bool := N.land b 0xC0 =? 0x80.

Definition payload (b : N) : N := N.land b 0x3F.

(** The code point of a multi-octet UTF-8 sequence, when the sequence is
    well formed: continuation octets, shortest form, no surrogate, at most
    [0x10FFFF]. *)
Definition utf8_decode (lead : N) (conts : list N) : option N :=
  if forallb is_continuation conts then
    match conts with
    | [b1] =>
        let v := N.shiftl (N.land lead 0x1F) 6 + payload b1 in
        if 0x80 <=? v then Some v else None
    | [b1; b2] =>
        let v := N.shiftl (N.land lead 0xF) 12 + N.shiftl (payload b1) 6
                 + payload b2 in
        if (0x800 <=? v) && negb (in_range 0xD800 0xDFFF v) then Some v
        else None
    | [b1; b2; b3] =>
        let v := N.shiftl (N.land lead 0x7) 18 + N.shiftl (payload b1) 12
                 + N.shiftl (payload b2) 6 + payload b3 in
        if in_range 0x10000 0x10FFFF v then Some v else None
    | _ => None
    end
  else None.

Definition utf16_encode (cp : N) : jsstring :=
  if cp <? 0x10000 then [cp]
  else [0xD800 + N.shiftr (cp - 0x10000) 10;
        0xDC00 + N.land (cp - 0x10000) 0x3FF].

Definition decoded (o : option N) (rest : result jsstring) : result jsstring :=
  match o with
  | Some cp => fmap (app (utf16_encode cp)) rest
  | None => Throw URIError
  end.

(** The abstract operation Decode with the empty reserved set.  The number
    of octets of a sequence is the number of leading one bits of its first
    octet: [0xC0..0xDF] two, [0xE0..0xEF] three, [0xF0..0xF7] four. *)
Fixpoint decodeURIComponent (s : jsstring) : result jsstring :=
  match s with
  | [] => Ok []
  | c :: r =>
      if c =? percent then
        match r with
        | x :: y :: r1 =>
            match escaped_octet c x y with
            | None => Throw URIError
            | Some b =>
                if b <? 0x80 then fmap (cons b) (decodeURIComponent r1)
                else if in_range 0xC0 0xDF b then
                  match r1 with
                  | p1 :: x1 :: y1 :: r2 =>
                      match escaped_octet p1 x1 y1 with
                      | Some b1 =>
                          decoded (utf8_decode b [b1]) (decodeURIComponent r2)
                      | None => Throw URIError
                      end
                  | _ => Throw URIError
                  end
                else if in_range 0xE0 0xEF b then
                  match r1 with
                  | p1 :: x1 :: y1 :: p2 :: x2 :: y2 :: r3 =>
                      match escaped_octet p1 x1 y1, escaped_octet p2 x2 y2 with
                      | Some b1, Some b2 =>
                          decoded (utf8_decode b [b1; b2])
                                  (decodeURIComponent r3)
                      | _, _ => Throw URIError
                      end
                  | _ => Throw URIError
                  end
                else if in_range 0xF0 0xF7 b then
                  match r1 with
                  | p1 :: x1 :: y1 :: p2 :: x2 :: y2 :: p3 :: x3 :: y3 :: r4 =>
                      match escaped_octet p1 x1 y1, escaped_octet p2 x2 y2,
                            escaped_octet p3 x3 y3 with
                      | Some b1, Some b2, Some b3 =>
                          decoded (utf8_decode b [b1; b2; b3])
                                  (decodeURIComponent r4)
                      | _, _, _ => Throw URIError
                      end
                  | _ => Throw URIError
                  end
                else Throw URIError
            end
        | _ => Throw URIError
        end
      else fmap (cons c) (decodeURIComponent r)
  end.

(** *** Plain objects with string values

    An object is the list of its own properties in the order [Object.keys]
    reports them: array indices in ascending numeric order first, then the
    other keys in the order they were created. *)

Definition object := list (jsstring * jsstring).

Definition is_digit (c : code_unit) : bool := in_range 48 57 c.

Definition digits_value (s : jsstring) : N :=
  fold_left (fun a c => 10 * a + (c - 48)) s 0.

(** The array index a key denotes: a canonical decimal numeral below
    [2^32 - 1]. *)
Definition array_index (k : jsstring) : option N :=
  match k with
  | [] => None
  | c :: r =>
      if forallb is_digit k && (negb (c =? 48) || is_empty r)
         && (digits_value k <? 2 ^ 32 - 1)
      then Some (digits_value k) else None
  end.

(** [Object.keys(o)] *)
Definition keys (o : object) : list jsstring := map fst o.

(** The own property [k] of [o]: [undefined] when [o] has none.  This is
    [o[k]] for every [k] of [Object.keys(o)]. *)
Fixpoint obj_get (o : object) (k : jsstring) : value :=
  match o with
  | [] => None
  | (k', v) :: o' => if str_eqb k' k then Some v else obj_get o' k
  end.

Definition has_key (o : object) (k : jsstring) : bool :=
  existsb (str_eqb k) (keys o).

Fixpoint update (o : object) (k v : jsstring) : object :=
  match o with
  | [] => []
  | (k', v') :: o' =>
      if str_eqb k' k then (k', v) :: o' else (k', v') :: update o' k v
  end.

Fixpoint insert_index (i : N) (k v : jsstring) (o : object) : object :=
  match o with
  | [] => [(k, v)]
  | (k', v') :: o' =>
      match array_index k' with
      | Some j => if j <? i then (k', v') :: insert_index i k v o'
                  else (k, v) :: o
      | None => (k, v) :: o
      end
  end.

(** [{ ...o, [k]: v }], which defines the own property [k]: an existing
    property keeps its place, a new one is created. *)
Definition obj_set (o : object) (k v : jsstring) : object :=
  if has_key o k then update o k v
  else match array_index k with
       | Some i => insert_index i k v o
       | None => o ++ [(k, v)]
       end.

(** The objects of the module are plain objects: their prototype is
    [Object.prototype], whose properties they inherit.  All of them are
    functions, but [__proto__], an accessor whose getter returns the
    prototype and whose setter ignores a value that is neither an object nor
    [null]. *)
Definition proto_name : jsstring := js "__proto__".

Definition object_prototype_names : list jsstring :=
  [js "constructor"; js "hasOwnProperty"; js "isPrototypeOf";
   js "propertyIsEnumerable"; js "toLocaleString"; js "toString";
   js "valueOf"; proto_name; js "__defineGetter__"; js "__defineSetter__";
   js "__lookupGetter__"; js "__lookupSetter__"].

(** What reading a property gives: a string, [undefined], or a value
    inherited from [Object.prototype] (a function or the prototype itself,
    never a string). *)
Inductive property : Type :=
| Str (s : jsstring)
| Inherited (name : jsstring)
| Undefined.

(** [o[k]]: the own property if there is one, else what the prototype
    supplies. *)
Definition obj_read (o : object) (k : jsstring) : property :=
  match obj_get o k with
  | Some v => Str v
  | None =>
      if existsb (str_eqb k) object_prototype_names then Inherited k
      else Undefined
  end.

(** [o[k] = v] for a string [v]: an own property is updated; otherwise the
    property is created, unless [k] is [__proto__], where the inherited
    setter runs and leaves the object as it is. *)
Definition obj_assign (o : object) (k v : jsstring) : object :=
  if has_key o k then obj_set o k v
  else if str_eqb k proto_name then o
  else obj_set o k v.

End JS.

Import JS.

(** ** [packages/utils/src/baggage.ts] *)

Module Baggage.

Definition BAGGAGE_HEADER_NAME : jsstring := js "baggage".

Definition SENTRY_BAGGAGE_KEY_PREFIX : jsstring := js "sentry-".

(** [/^sentry-/.test(s)] *)
Definition SENTRY_BAGGAGE_KEY_PREFIX_REGEX (s : jsstring) : bool :=
  starts_with (js "sentry-") s.

Definition MAX_BAGGAGE_STRING_LENGTH : N := 8192.

(** The tuple [[BaggageObj, string]]: the first-party items and the
    third-party part of the header. *)
Definition Baggage : Type := object * jsstring.

Definition comma : code_unit := 44.
Definition equals : code_unit := 61.
Definition dash : code_unit := 45.

(** The second parameter defaults to [''] when it is [undefined]. *)
Definition createBaggage (initItems : object) (baggageString : value) : Baggage :=
  (initItems, match baggageString with Some s => s | None => [] end).

(** [baggage[0][key]] *)
Definition getBaggageValue (baggage : Baggage) (key : jsstring) : property :=
  obj_read (fst baggage) key.

(** [baggage[0][key] = value]: the assignment mutates the object; the new
    state of the tuple is returned. *)
Definition setBaggageValue (baggage : Baggage) (key val : jsstring) : Baggage :=
  (obj_assign (fst baggage) key val, snd baggage).

Definition isBaggageEmpty (baggage : Baggage) : bool :=
  Nat.eqb (List.length (keys (fst baggage))) 0.

Definition getThirdPartyBaggage (baggage : Baggage) : jsstring := snd baggage.

(** [`${prev},${baggageEntry}`], or the entry alone after an empty string. *)
Definition append_entry (prev entry : jsstring) : jsstring :=
  if is_empty prev then entry else prev ++ comma :: entry.

(** [`${SENTRY_BAGGAGE_KEY_PREFIX}${encodeURIComponent(key)}=${encodeURIComponent(val)}`]
    for [val = baggage[0][key]]. *)
Definition baggage_entry (baggage : Baggage) (key : jsstring) : result jsstring :=
  let val := to_string (obj_get (fst baggage) key) in
  bind (encodeURIComponent key) (fun ekey =>
  bind (encodeURIComponent val) (fun eval =>
  Ok (SENTRY_BAGGAGE_KEY_PREFIX ++ ekey ++ equals :: eval))).

(** The callback of the reduction in [serializeBaggage].  The warning that
    a debug build logs for an entry it leaves out is not part of the
    result. *)
Definition serialize_step (baggage : Baggage) (prev key : jsstring)
  : result jsstring :=
  bind (baggage_entry baggage key) (fun baggageEntry =>
  let newVal := append_entry prev baggageEntry in
  if MAX_BAGGAGE_STRING_LENGTH <? str_length newVal then Ok prev
  else Ok newVal).

Definition serializeBaggage (baggage : Baggage) : result jsstring :=
  reduce (serialize_step baggage) (keys (fst baggage)) (snd baggage).

(** The serialization without the length check, to compare with: every
    entry is appended. *)
Definition unbounded_step (baggage : Baggage) (prev key : jsstring)
  : result jsstring :=
  bind (baggage_entry baggage key) (fun baggageEntry =>
  Ok (append_entry prev baggageEntry)).

Definition unbounded_serialization (baggage : Baggage) : result jsstring :=
  reduce (unbounded_step baggage) (keys (fst baggage)) (snd baggage).

(** [const [key, val] = curr.split('=')]: the first two pieces; [val] is
    [undefined] when there is no second piece. *)
Definition key_val (curr : jsstring) : jsstring * value :=
  let parts := split equals curr in
  (to_string (nth_error parts 0), nth_error parts 1).

(** The callback of the reduction in [parseBaggageString]. *)
Definition parse_step (acc : Baggage) (curr : jsstring) : result Baggage :=
  let '(baggageObj, baggageString) := acc in
  let '(key, val) := key_val curr in
  if SENTRY_BAGGAGE_KEY_PREFIX_REGEX key then
    bind (decodeURIComponent (to_string (nth_error (split dash key) 1)))
      (fun baggageKey =>
    bind (decodeURIComponent (to_string val)) (fun v =>
    Ok (obj_set baggageObj baggageKey v, baggageString)))
  else
    Ok (baggageObj, append_entry baggageString curr).

Definition parseBaggageString (inputBaggageString : jsstring) : result Baggage :=
  reduce parse_step (split comma inputBaggageString) ([], []).

(** Truthiness of an optional string: [undefined] and [''] are falsy. *)
Definition truthy (v : value) : bool :=
  match v with
  | Some s => negb (is_empty s)
  | None => false
  end.

(** Both arguments are optional.  A tuple is always truthy, so
    [(h && parse(h)) || undefined] is the parsed header when the header is
    truthy and [undefined] otherwise. *)
Definition mergeAndSerializeBaggage
  (incomingBaggage : option Baggage) (headerBaggageString : value)
  : result jsstring :=
  match incomingBaggage, truthy headerBaggageString with
  | None, false => Ok []
  | _, _ =>
      bind (if truthy headerBaggageString
            then fmap Some (parseBaggageString (to_string headerBaggageString))
            else Ok None) (fun headerBaggage =>
      let thirdPartyHeaderBaggage : value :=
        option_map getThirdPartyBaggage headerBaggage in
      let finalBaggage :=
        createBaggage
          (match incomingBaggage with Some b => fst b | None => [] end)
          (Some (if truthy thirdPartyHeaderBaggage
                 then to_string thirdPartyHeaderBaggage else [])) in
      serializeBaggage finalBaggage)
  end.

End Baggage.

Import Baggage.

(** ** Trace-context correlator *)

Module Correlator.

(** Modelled from the spec: the correlator (the browser tracing integration
    that starts pageload and navigation operations and attaches spans) is
    not in the source files; only an integration test of it is.  The state
    machine below follows section 4.5 of the specification: states
    [NoContext], [PageloadContext] and [NavigationContext]; the initial load
    inherits a discovered trace id and parent span id and generates a fresh
    root span id; every navigation generates a fresh trace id and a fresh
    root span id and inherits no parent; a span created while an operation
    is active is attached to the root span of that operation; after the
    root span has completed no span attaches.  Identifiers are abstract
    numbers. *)
Definition id := N.












End Correlator.


(** ** Vocabulary of the statements *)

(** What [encodeURIComponent] writes for a string of code units below 128:
    unreserved characters as they are, every other one as [%XY]. *)
Definition ascii_encode (s : jsstring) : jsstring :=
  flat_map (fun c => if uri_unescaped c then [c] else percent_octet c) s.

Definition is_ascii (s : jsstring) : Prop := Forall (fun c => c < 128) s.

(** Printable ASCII: the code units [0x20 .. 0x7E]. *)
Definition printable (s : jsstring) : Prop :=
  Forall (fun c => 32 <= c <= 126) s.

(** The output extends the third-party part [rem]: either [rem] is empty,
    or the output is [rem] itself, or [rem] followed by a comma and more. *)
Definition keeps_third_party (rem s : jsstring) : Prop :=
  rem = [] \/ s = rem \/ exists t, s = rem ++ comma :: t.

(** The test the parser applies to a segment: the prefix test on its key. *)
Definition first_party (curr : jsstring) : bool :=
  SENTRY_BAGGAGE_KEY_PREFIX_REGEX (fst (key_val curr)).

(** A list of segments without its leading empty segments. *)
Fixpoint drop_empty (l : list jsstring) : list jsstring :=
  match l with
  | [] :: l' => drop_empty l'
  | _ => l
  end.

(** The third-party segments of a header, in order. *)
Definition third_party_segments (h : jsstring) : list jsstring :=
  drop_empty (filter (fun w => negb (first_party w)) (split comma h)).

(** [n] copies of the letter [x]. *)
Definition filler (n : N) : jsstring := repeat 120 (N.to_nat n).

(** The entry the serializer writes for an ASCII key and value. *)
Definition entry_text (kv : jsstring * jsstring) : jsstring :=
  SENTRY_BAGGAGE_KEY_PREFIX ++ ascii_encode (fst kv)
  ++ equals :: ascii_encode (snd kv).

Definition printableb (s : jsstring) : bool := forallb (in_range 32 126) s.

(** Writing the properties of one object into another, in order. *)
Definition assign (target source : object) : object :=
  fold_left (fun acc kv => obj_set acc (fst kv) (snd kv)) source target.

(** [w] is the entry the serializer writes for a property of [o]. *)
Definition is_entry (o : object) (w : jsstring) : Prop :=
  exists k v ek ev,
    In (k, v) o /\ encodeURIComponent k = Ok ek /\ encodeURIComponent v = Ok ev
    /\ w = SENTRY_BAGGAGE_KEY_PREFIX ++ ek ++ equals :: ev.

(** [l] is [l'] with some elements left out, the order kept. *)
Inductive subsequence {A : Type} : list A -> list A -> Prop :=
| subsequence_nil : subsequence [] []
| subsequence_skip (x : A) (l l' : list A) :
    subsequence l l' -> subsequence l (x :: l')
| subsequence_take (x : A) (l l' : list A) :
    subsequence l l' -> subsequence (x :: l) (x :: l').

(** A string of UTF-16 code units. *)
Definition code_units (s : jsstring) : Prop := Forall (fun c => c < 0x10000) s.

(** A string of code units in which every surrogate is part of a pair. *)
Fixpoint well_formed (s : jsstring) : bool :=
  match s with
  | [] => true
  | c :: r =>
      if is_lead_surrogate c then
        match r with
        | d :: r' => is_trail_surrogate d && well_formed r'
        | [] => false
        end
      else negb (is_trail_surrogate c) && (c <? 0x10000) && well_formed r
  end.

(** A Unicode scalar value: a code point that is not a surrogate. *)
Definition scalar (v : N) : Prop :=
  v <= 0x10FFFF /\ in_range 0xD800 0xDFFF v = false.

(** [e] is the entry that the serializer writes for the property [kv]. *)
Definition entry_of (kv : jsstring * jsstring) (e : jsstring) : Prop :=
  exists ek ev,
    encodeURIComponent (fst kv) = Ok ek /\ encodeURIComponent (snd kv) = Ok ev
    /\ e = SENTRY_BAGGAGE_KEY_PREFIX ++ ek ++ equals :: ev.

Module CorrelatorInvariant.
Import Correlator.



End CorrelatorInvariant.

Example split_sample :
  split 44 (js "a,,b") = [js "a"; js ""; js "b"] /\ split 44 (js "") = [js ""].
Proof. split; reflexivity. Qed.

Example encode_sample :
  encodeURIComponent (js "a b=c,d-e") = Ok (js "a%20b%3Dc%2Cd-e")
  /\ encodeURIComponent [0xE9] = Ok (js "%C3%A9")
  /\ encodeURIComponent [0xD83D; 0xDE00] = Ok (js "%F0%9F%98%80")
  /\ encodeURIComponent [0xD83D] = Throw URIError.
Proof. repeat split; reflexivity. Qed.

Example decode_sample :
  decodeURIComponent (js "a%20b%3dc%2Cd-e") = Ok (js "a b=c,d-e")
  /\ decodeURIComponent (js "%C3%A9") = Ok [0xE9]
  /\ decodeURIComponent (js "%E2%82%AC") = Ok [0x20AC]
  /\ decodeURIComponent (js "%F0%9F%98%80") = Ok [0xD83D; 0xDE00]
  /\ decodeURIComponent (js "%") = Throw URIError
  /\ decodeURIComponent (js "%C0%80") = Throw URIError
  /\ decodeURIComponent (js "%ED%A0%80") = Throw URIError.
Proof. repeat split; reflexivity. Qed.

Example parse_scenario :
  parseBaggageString (js "sentry-trace_id=abc,sentry-sample_rate=1,other=xyz")
  = Ok ([(js "trace_id", js "abc"); (js "sample_rate", js "1")], js "other=xyz").
Proof. reflexivity. Qed.

Example serialize_scenario :
  serializeBaggage (createBaggage [(js "a", js "1")] (Some (js "other=xyz")))
  = Ok (js "other=xyz,sentry-a=1").
Proof. reflexivity. Qed.

Example object_key_order :
  keys (obj_set (obj_set (obj_set [] (js "b") (js "x")) (js "10") (js "y"))
          (js "2") (js "z"))
  = [js "2"; js "10"; js "b"].
Proof. reflexivity. Qed.

(** ** Reductions that may throw *)

Section Reduce.
Context {A B : Type}.
Variable f : A -> B -> result A.

Lemma reduce_app (l1 l2 : list B) (init : A) :
  reduce f (l1 ++ l2) init = bind (reduce f l1 init) (reduce f l2).
Proof.
  revert init; induction l1 as [|x l1 IH]; intros init; simpl.
  - reflexivity.
  - destruct (f init x) as [a|e]; simpl; [apply IH | reflexivity].
Qed.

(** An invariant of the accumulator that every successful call of the
    callback keeps holds of the result. *)
Lemma reduce_invariant (P : A -> Prop) (l : list B) :
  (forall a x a', In x l -> P a -> f a x = Ok a' -> P a') ->
  forall init r, P init -> reduce f l init = Ok r -> P r.
Proof.
  induction l as [|x l IH]; simpl; intros Hstep init r Hinit Hr.
  - now inversion Hr; subst.
  - destruct (f init x) as [a|e] eqn:Hf; simpl in Hr; [|discriminate].
    apply (IH (fun a0 y a' Hy => Hstep a0 y a' (or_intror Hy)) a r); auto.
    apply (Hstep init x a); auto.
Qed.

(** A reduction throws only if some call of the callback does. *)
Lemma reduce_total (l : list B) :
  (forall a x, In x l -> exists a', f a x = Ok a') ->
  forall init, exists r, reduce f l init = Ok r.
Proof.
  induction l as [|x l IH]; simpl; intros Hstep init.
  - now exists init.
  - destruct (Hstep init x (or_introl eq_refl)) as [a Ha].
    rewrite Ha; simpl. apply IH. intros a0 y Hy. apply Hstep; now right.
Qed.
End Reduce.

Lemma bind_Ok {A B} (m : result A) (k : A -> result B) (b : B) :
  bind m k = Ok b -> exists a, m = Ok a /\ k a = Ok b.
Proof. destruct m as [a|e]; simpl; [eauto | discriminate]. Qed.

Lemma fmap_Ok {A B} (f : A -> B) (m : result A) (b : B) :
  fmap f m = Ok b -> exists a, m = Ok a /\ b = f a.
Proof.
  unfold fmap; intros H. apply bind_Ok in H as (a & Ha & Hb).
  inversion Hb; eauto.
Qed.

(** ** Strings: equality, [split] and [join] *)

Lemma str_eqb_eq (a b : jsstring) : str_eqb a b = true <-> a = b.
Proof. unfold str_eqb; destruct (list_eq_dec N.eq_dec a b); split; congruence. Qed.

Lemma str_eqb_refl (a : jsstring) : str_eqb a a = true.
Proof. now apply str_eqb_eq. Qed.

Lemma str_eqb_neq (a b : jsstring) : str_eqb a b = false <-> a <> b.
Proof. unfold str_eqb; destruct (list_eq_dec N.eq_dec a b); split; congruence. Qed.

Section Split.
Variable sep : code_unit.

Lemma split_not_nil (s : jsstring) : split sep s <> [].
Proof.
  destruct s as [|c r]; simpl; [discriminate|].
  destruct (c =? sep); [discriminate|].
  destruct (split sep r); discriminate.
Qed.

Lemma split_cons_other (c : code_unit) (r : jsstring) :
  c <> sep ->
  exists w ws, split sep r = w :: ws /\ split sep (c :: r) = (c :: w) :: ws.
Proof.
  intros Hc. simpl. apply N.eqb_neq in Hc; rewrite Hc.
  destruct (split sep r) as [|w ws] eqn:E.
  - now apply split_not_nil in E.
  - now exists w, ws.
Qed.

(** No piece contains the separator. *)
Lemma split_pieces (s w : jsstring) : In w (split sep s) -> ~ In sep w.
Proof.
  revert w; induction s as [|c r IH]; intros w; simpl.
  - intros [<-|[]]; auto.
  - destruct (N.eqb_spec c sep) as [->|Hc].
    + intros [<-|Hw]; auto.
    + destruct (split sep r) as [|w0 ws] eqn:E.
      * intros [<-|[]]. intros [H|[]]; congruence.
      * intros [<-|Hw].
        -- intros [H|H]; [congruence|]. apply (IH w0); simpl; auto.
        -- apply IH; simpl; auto.
Qed.

Lemma join_split (s : jsstring) : join sep (split sep s) = s.
Proof.
  induction s as [|c r IH]; simpl; [reflexivity|].
  destruct (N.eqb_spec c sep) as [->|Hc].
  - destruct (split sep r) as [|w ws] eqn:E; [now apply split_not_nil in E|].
    simpl in *. now rewrite IH.
  - destruct (split sep r) as [|w ws] eqn:E; [now apply split_not_nil in E|].
    destruct ws; simpl in *; now rewrite <- IH.
Qed.

Lemma split_app (a b : jsstring) :
  split sep (a ++ sep :: b) = split sep a ++ split sep b.
Proof.
  induction a as [|c a IH]; simpl.
  - now rewrite N.eqb_refl.
  - destruct (c =? sep); [now rewrite IH|].
    rewrite IH. destruct (split sep a) as [|w ws] eqn:E; [|reflexivity].
    now apply split_not_nil in E.
Qed.

Lemma split_one (w : jsstring) : ~ In sep w -> split sep w = [w].
Proof.
  induction w as [|c w IH]; simpl; intros H; [reflexivity|].
  destruct (N.eqb_spec c sep) as [->|Hc]; [tauto|].
  rewrite IH; tauto.
Qed.

Lemma split_app_one (w b : jsstring) :
  ~ In sep w -> split sep (w ++ sep :: b) = w :: split sep b.
Proof. intros H. now rewrite split_app, split_one. Qed.

Lemma split_join (l : list jsstring) :
  l <> [] -> (forall w, In w l -> ~ In sep w) -> split sep (join sep l) = l.
Proof.
  induction l as [|w l IH]; [congruence|]; intros _ H.
  destruct l as [|w' l].
  - simpl. apply split_one, H; simpl; auto.
  - change (join sep (w :: w' :: l)) with (w ++ sep :: join sep (w' :: l)).
    rewrite split_app_one by (apply H; simpl; auto).
    rewrite IH; [reflexivity | discriminate | intros; apply H; simpl; auto].
Qed.
End Split.

Lemma starts_with_app (p s : jsstring) : starts_with p (p ++ s) = true.
Proof. induction p; simpl; [reflexivity|]. now rewrite N.eqb_refl. Qed.

Lemma starts_with_inv (p s : jsstring) :
  starts_with p s = true -> exists t, s = p ++ t.
Proof.
  revert s; induction p as [|a p IH]; intros s; simpl.
  - now exists s.
  - destruct s as [|b s]; [discriminate|].
    intros H. apply andb_true_iff in H as [Hab Hp].
    apply N.eqb_eq in Hab; subst. destruct (IH _ Hp) as [t ->]. now exists t.
Qed.

(** ** Objects: reading after writing *)

Lemma has_key_spec (o : object) (k : jsstring) :
  has_key o k = true <-> In k (keys o).
Proof.
  unfold has_key. rewrite existsb_exists. split.
  - intros (x & Hx & E). apply str_eqb_eq in E. now subst.
  - intros H. exists k. split; [assumption | apply str_eqb_refl].
Qed.

Lemma obj_get_In (o : object) (k v : jsstring) :
  obj_get o k = Some v -> In (k, v) o.
Proof.
  induction o as [|[k' v'] o IH]; simpl; [discriminate|].
  destruct (str_eqb k' k) eqn:E.
  - apply str_eqb_eq in E. intros H; inversion H; subst. now left.
  - intros H. right. now apply IH.
Qed.

Lemma obj_get_key (o : object) (k : jsstring) :
  In k (keys o) -> exists v, obj_get o k = Some v.
Proof.
  induction o as [|[k' v'] o IH]; simpl; [tauto|].
  destruct (str_eqb k' k) eqn:E; [eauto|].
  intros [H|H]; [apply str_eqb_neq in E; congruence | auto].
Qed.

Lemma obj_get_not_key (o : object) (k : jsstring) :
  ~ In k (keys o) -> obj_get o k = None.
Proof.
  induction o as [|[k' v'] o IH]; simpl; [reflexivity|].
  intros H. destruct (str_eqb k' k) eqn:E.
  - apply str_eqb_eq in E. tauto.
  - apply IH. tauto.
Qed.

Lemma obj_get_update (o : object) (k v k0 : jsstring) :
  In k (keys o) ->
  obj_get (update o k v) k0 = if str_eqb k k0 then Some v else obj_get o k0.
Proof.
  induction o as [|[k' v'] o IH]; simpl; [tauto|]. intros H.
  destruct (str_eqb k' k) eqn:E; simpl.
  - apply str_eqb_eq in E; subst k'. now destruct (str_eqb k k0).
  - destruct (str_eqb k' k0) eqn:E0.
    + apply str_eqb_eq in E0; subst k0.
      destruct (str_eqb k k') eqn:E1; [|reflexivity].
      apply str_eqb_eq in E1. apply str_eqb_neq in E. congruence.
    + apply IH. destruct H as [H|H]; [|assumption].
      apply str_eqb_neq in E. congruence.
Qed.

Lemma obj_get_insert_index (i : N) (o : object) (k v k0 : jsstring) :
  ~ In k (keys o) ->
  obj_get (insert_index i k v o) k0
  = if str_eqb k k0 then Some v else obj_get o k0.
Proof.
  induction o as [|[k' v'] o IH]; simpl; [reflexivity|]. intros H.
  assert (Hk : str_eqb k' k = false) by (apply str_eqb_neq; tauto).
  destruct (array_index k') as [j|]; [destruct (j <? i)|]; simpl;
    try reflexivity.
  rewrite IH by tauto.
  destruct (str_eqb k' k0) eqn:E0; [|reflexivity].
  apply str_eqb_eq in E0; subst k0.
  destruct (str_eqb k k') eqn:E1; [|reflexivity].
  apply str_eqb_eq in E1. apply str_eqb_neq in Hk. congruence.
Qed.

Lemma obj_get_snoc (o : object) (k v k0 : jsstring) :
  ~ In k (keys o) ->
  obj_get (o ++ [(k, v)]) k0 = if str_eqb k k0 then Some v else obj_get o k0.
Proof.
  induction o as [|[k' v'] o IH]; simpl; [reflexivity|]. intros H.
  destruct (str_eqb k' k0) eqn:E0.
  - apply str_eqb_eq in E0; subst k0.
    destruct (str_eqb k k') eqn:E1; [|reflexivity].
    apply str_eqb_eq in E1. subst. tauto.
  - apply IH. tauto.
Qed.

(** Reading a property after a write: the written value at the written
    key, the old value elsewhere. *)
Lemma obj_get_set (o : object) (k v k0 : jsstring) :
  obj_get (obj_set o k v) k0 = if str_eqb k k0 then Some v else obj_get o k0.
Proof.
  unfold obj_set. destruct (has_key o k) eqn:E.
  - apply obj_get_update. now apply has_key_spec.
  - assert (H : ~ In k (keys o)).
    { intros H. apply has_key_spec in H. congruence. }
    destruct (array_index k); [now apply obj_get_insert_index|].
    now apply obj_get_snoc.
Qed.

(** Reading finds the own property first, whatever the prototype has. *)
Lemma obj_read_own (o : object) (k v : jsstring) :
  obj_get o k = Some v -> obj_read o k = Str v.
Proof. unfold obj_read. now intros ->. Qed.

Lemma obj_read_Str (o : object) (k v : jsstring) :
  obj_read o k = Str v <-> obj_get o k = Some v.
Proof.
  unfold obj_read. destruct (obj_get o k) as [w|].
  - split; intros H; inversion H; reflexivity.
  - destruct (existsb _ _); split; discriminate.
Qed.

Lemma obj_assign_cases (o : object) (k v : jsstring) :
  (obj_assign o k v = obj_set o k v
   /\ (k <> proto_name \/ In k (keys o)))
  \/ (obj_assign o k v = o /\ k = proto_name /\ ~ In k (keys o)).
Proof.
  unfold obj_assign. destruct (has_key o k) eqn:E.
  - left. split; [reflexivity|]. right. now apply has_key_spec.
  - destruct (str_eqb k proto_name) eqn:E'.
    + right. apply str_eqb_eq in E'. repeat split; [assumption|].
      intros H. apply has_key_spec in H. congruence.
    + left. apply str_eqb_neq in E'. auto.
Qed.

Lemma obj_get_unique (o : object) (k v : jsstring) :
  NoDup (keys o) -> In (k, v) o -> obj_get o k = Some v.
Proof.
  induction o as [|[k' v'] o IH]; simpl; [tauto|].
  intros Hnd [H|H].
  - inversion H; subst. now rewrite str_eqb_refl.
  - inversion Hnd as [|? ? Hk' Hnd']; subst.
    destruct (str_eqb k' k) eqn:E; [|now apply IH].
    apply str_eqb_eq in E; subst k'.
    exfalso. apply Hk'. change k with (fst (k, v)). now apply in_map.
Qed.

(** Writing the properties of [o] one after the other, in order, into
    another object: [o] wins where it has the key. *)
Lemma obj_get_fold_set (o o0 : object) (k : jsstring) :
  NoDup (keys o) ->
  obj_get (fold_left (fun acc kv => obj_set acc (fst kv) (snd kv)) o o0) k
  = match obj_get o k with Some v => Some v | None => obj_get o0 k end.
Proof.
  revert o0; induction o as [|[k1 v1] o IH]; intros o0 Hnd; simpl;
    [reflexivity|].
  inversion Hnd as [|? ? Hk1 Hnd']; subst.
  rewrite IH by assumption. rewrite obj_get_set.
  destruct (str_eqb k1 k) eqn:E.
  - apply str_eqb_eq in E; subst k. now rewrite obj_get_not_key.
  - reflexivity.
Qed.

(** ** Percent-encoding of ASCII text *)

Lemma printable_ascii (s : jsstring) : printable s -> is_ascii s.
Proof. apply Forall_impl. intros c; lia. Qed.

(** A property checked on each of the 128 ASCII code units holds of all. *)
Lemma ascii_cases (P : N -> bool) :
  forallb P (map N.of_nat (seq 0 128)) = true ->
  forall c, c < 128 -> P c = true.
Proof.
  intros H c Hc. rewrite forallb_forall in H. apply H.
  rewrite <- (N2Nat.id c). apply in_map. apply in_seq. lia.
Qed.

Lemma ascii_utf8 (c : N) : c < 128 -> utf8_encode c = [c].
Proof. intros H. unfold utf8_encode. apply N.ltb_lt in H. now rewrite H. Qed.

Lemma ascii_not_surrogate (c : N) :
  c < 128 -> is_trail_surrogate c = false /\ is_lead_surrogate c = false.
Proof.
  intros H. unfold is_trail_surrogate, is_lead_surrogate, in_range.
  split; apply andb_false_iff; left; apply N.leb_gt; lia.
Qed.

Lemma ascii_escape_octet (c : N) :
  c < 128 -> uri_unescaped c = false ->
  escaped_octet percent (hex_digit (N.shiftr c 4)) (hex_digit (N.land c 0xF))
  = Some c.
Proof.
  intros Hc Hu.
  pose proof (ascii_cases
    (fun c => uri_unescaped c ||
       match escaped_octet percent (hex_digit (N.shiftr c 4))
                           (hex_digit (N.land c 0xF)) with
       | Some b => b =? c
       | None => false
       end) eq_refl c Hc) as H.
  cbv beta in H. rewrite Hu in H. simpl orb in H.
  destruct (escaped_octet _ _ _) as [b|]; [|discriminate].
  apply N.eqb_eq in H. now subst.
Qed.

(** The characters of an escape are the percent sign and hexadecimal
    digits: never a comma, an equals sign or a dash. *)
Lemma ascii_escape_chars (c x : N) :
  c < 128 -> In x (percent_octet c) -> x <> comma /\ x <> equals /\ x <> dash.
Proof.
  intros Hc Hx.
  pose proof (ascii_cases
    (fun c => forallb (fun x => negb (x =? comma) && negb (x =? equals)
                                && negb (x =? dash)) (percent_octet c))
    eq_refl c Hc) as H.
  cbv beta in H. rewrite forallb_forall in H. specialize (H x Hx).
  apply andb_true_iff in H as [H H3]. apply andb_true_iff in H as [H1 H2].
  apply negb_true_iff in H1, H2, H3.
  apply N.eqb_neq in H1, H2, H3. auto.
Qed.

Lemma unescaped_not_percent (c : N) : uri_unescaped c = true -> c <> percent.
Proof. intros H ->. discriminate H. Qed.

Lemma encode_ascii (s : jsstring) :
  is_ascii s -> encodeURIComponent s = Ok (ascii_encode s).
Proof.
  induction 1 as [|c s Hc Hs IH]; [reflexivity|].
  cbn [encodeURIComponent ascii_encode flat_map].
  destruct (uri_unescaped c); [now rewrite IH|].
  destruct (ascii_not_surrogate c Hc) as [-> ->].
  rewrite IH, (ascii_utf8 c Hc). cbn [fmap bind percent_octets flat_map].
  now rewrite app_nil_r.
Qed.

Lemma decode_plain (c : code_unit) (r : jsstring) :
  c <> percent ->
  decodeURIComponent (c :: r) = fmap (cons c) (decodeURIComponent r).
Proof.
  intros H. apply N.eqb_neq in H. cbn [decodeURIComponent]. now rewrite H.
Qed.

Lemma decode_escape (x y b : N) (r : jsstring) :
  escaped_octet percent x y = Some b -> b < 128 ->
  decodeURIComponent (percent :: x :: y :: r)
  = fmap (cons b) (decodeURIComponent r).
Proof.
  intros E Hb. apply N.ltb_lt in Hb.
  cbn [decodeURIComponent]. rewrite N.eqb_refl, E.
  change (b <? 0x80) with (b <? 128). now rewrite Hb.
Qed.

(** Decoding undoes encoding on ASCII text. *)
Lemma decode_encode_ascii (s : jsstring) :
  is_ascii s -> decodeURIComponent (ascii_encode s) = Ok s.
Proof.
  induction 1 as [|c s Hc Hs IH]; [reflexivity|].
  cbn [ascii_encode flat_map]. fold (ascii_encode s).
  destruct (uri_unescaped c) eqn:Hu.
  - cbn [app]. rewrite decode_plain by now apply unescaped_not_percent.
    now rewrite IH.
  - unfold percent_octet. cbn [app].
    rewrite (decode_escape _ _ c) by (auto using ascii_escape_octet).
    now rewrite IH.
Qed.

(** The encoded text contains no comma and no equals sign, and a dash only
    where the original has one. *)
Lemma ascii_encode_chars (s : jsstring) (x : N) :
  is_ascii s -> In x (ascii_encode s) ->
  x <> comma /\ x <> equals /\ (x = dash -> In dash s).
Proof.
  induction 1 as [|c s Hc Hs IH]; [intros []|].
  cbn [ascii_encode flat_map]. fold (ascii_encode s).
  intros Hx. apply in_app_or in Hx as [Hx|Hx].
  - destruct (uri_unescaped c) eqn:Hu.
    + destruct Hx as [<-|[]].
      repeat split; try (intros ->; discriminate Hu). intros ->; now left.
    + destruct (ascii_escape_chars c x Hc Hx) as (H1 & H2 & H3).
      repeat split; auto. intros; contradiction.
  - destruct (IH Hx) as (H1 & H2 & H3). repeat split; auto.
    intros E; right; auto.
Qed.

(** ** The serializer *)

Lemma reduce_throw {A B} (f : A -> B -> result A) (l : list B) :
  forall init e, reduce f l init = Throw e ->
  exists a x, In x l /\ f a x = Throw e.
Proof.
  induction l as [|x l IH]; simpl; intros init e H; [discriminate|].
  destruct (f init x) as [a|e'] eqn:Hf; simpl in H.
  - destruct (IH a e H) as (a' & y & Hy & Hfy). exists a', y. auto.
  - inversion H; subst. exists init, x. auto.
Qed.

Lemma str_length_app (a b : jsstring) :
  str_length (a ++ b) = str_length a + str_length b.
Proof. unfold str_length. rewrite length_app. lia. Qed.

Lemma append_entry_empty (e : jsstring) : append_entry [] e = e.
Proof. reflexivity. Qed.

Lemma append_entry_nonempty (prev e : jsstring) :
  prev <> [] -> append_entry prev e = prev ++ comma :: e.
Proof. destruct prev; [congruence | reflexivity]. Qed.

Lemma append_entry_length (prev e : jsstring) :
  str_length prev <= str_length (append_entry prev e).
Proof.
  destruct prev as [|c p]; unfold append_entry; cbn [is_empty].
  - unfold str_length; simpl; lia.
  - rewrite str_length_app. lia.
Qed.

Lemma keeps_third_party_append (rem prev e : jsstring) :
  keeps_third_party rem prev -> keeps_third_party rem (append_entry prev e).
Proof.
  intros [H|[->|[t ->]]]; [now left | |].
  - destruct rem as [|c r]; [now left|]. right; right. now exists e.
  - right; right. exists (t ++ comma :: e).
    rewrite append_entry_nonempty by (destruct rem; discriminate).
    now rewrite <- app_assoc.
Qed.

Lemma keeps_third_party_prefix (rem s : jsstring) :
  keeps_third_party rem s -> exists t, s = rem ++ t.
Proof.
  intros [->|[->|[t ->]]]; [now exists s | exists []; now rewrite app_nil_r |].
  now exists (comma :: t).
Qed.

Lemma keeps_third_party_segments (rem s w : jsstring) :
  keeps_third_party rem s -> rem <> [] ->
  In w (split comma rem) -> In w (split comma s).
Proof.
  intros [->|[->|[t ->]]] Hne Hw; [congruence | assumption |].
  rewrite split_app. apply in_or_app. now left.
Qed.

Lemma serialize_step_cases (b : Baggage) (prev key r : jsstring) :
  serialize_step b prev key = Ok r ->
  exists e, baggage_entry b key = Ok e
            /\ (r = prev
                \/ (r = append_entry prev e
                    /\ str_length r <= MAX_BAGGAGE_STRING_LENGTH)).
Proof.
  unfold serialize_step. intros H. apply bind_Ok in H as (e & He & H).
  exists e. split; [assumption|]. cbv zeta in H.
  destruct (N.ltb_spec MAX_BAGGAGE_STRING_LENGTH
              (str_length (append_entry prev e))) as [Hlt|Hle];
    inversion H; subst; auto.
Qed.

Lemma baggage_entry_throw (b : Baggage) (key : jsstring) (e : error) :
  In key (keys (fst b)) -> baggage_entry b key = Throw e ->
  exists v, In (key, v) (fst b)
            /\ (encodeURIComponent key = Throw URIError
                \/ encodeURIComponent v = Throw URIError).
Proof.
  intros Hk H. destruct (obj_get_key _ _ Hk) as [v Hv].
  exists v. split; [now apply obj_get_In|].
  unfold baggage_entry in H. rewrite Hv in H. cbn [to_string] in H.
  destruct (encodeURIComponent key) as [ek|[]]; [right | now left].
  destruct (encodeURIComponent v) as [ev|[]]; [discriminate | reflexivity].
Qed.

Lemma serialize_reduce_bound (b : Baggage) (l : list jsstring) (init r : jsstring) :
  reduce (serialize_step b) l init = Ok r ->
  (str_length init <= MAX_BAGGAGE_STRING_LENGTH ->
   str_length r <= MAX_BAGGAGE_STRING_LENGTH)
  /\ keeps_third_party init r.
Proof.
  intros H.
  apply (reduce_invariant (serialize_step b)
           (fun a => (str_length init <= MAX_BAGGAGE_STRING_LENGTH ->
                      str_length a <= MAX_BAGGAGE_STRING_LENGTH)
                     /\ keeps_third_party init a) l) with (init := init);
    [ | split; [auto | right; now left] | assumption].
  intros a x a' _ [Hlen Hkeep] Hstep.
  apply serialize_step_cases in Hstep as (e & _ & [->|[-> Hle]]); [auto|].
  split; [auto | now apply keeps_third_party_append].
Qed.

(** ** The parser *)

Lemma key_val_fst (curr : jsstring) :
  exists ws, split equals curr = fst (key_val curr) :: ws
             /\ snd (key_val curr) = nth_error ws 0.
Proof.
  unfold key_val. destruct (split equals curr) as [|w ws] eqn:E.
  - now apply split_not_nil in E.
  - exists ws. split; [reflexivity|]. simpl. now destruct ws.
Qed.

(** The key of a segment starts with the prefix exactly when the segment
    does: the prefix contains no equals sign. *)
Lemma first_party_segment (curr : jsstring) :
  first_party curr = SENTRY_BAGGAGE_KEY_PREFIX_REGEX curr.
Proof.
  unfold first_party. destruct (key_val_fst curr) as (ws & E & _).
  pose proof (join_split equals curr) as J. rewrite E in J.
  set (k := fst (key_val curr)) in *. clearbody k. clear E.
  destruct ws as [|w ws].
  - simpl in J. now subst.
  - change (join equals (k :: w :: ws)) with (k ++ equals :: join equals (w :: ws)) in J.
    rewrite <- J. clear. generalize (join equals (w :: ws)) as t. intros t.
    unfold SENTRY_BAGGAGE_KEY_PREFIX_REGEX.
    (* compare the first seven code units *)
    do 7 (destruct k as [|? k]; [reflexivity|];
          cbn [starts_with js map list_ascii_of_string app];
          match goal with
          | |- (?a =? ?b) && _ = (?a =? ?b) && _ =>
              destruct (a =? b); [cbn [andb]|reflexivity]
          end).
    reflexivity.
Qed.

Lemma parse_step_unfold (o : object) (s curr : jsstring) :
  parse_step (o, s) curr
  = if first_party curr then
      bind (decodeURIComponent
              (to_string (nth_error (split dash (fst (key_val curr))) 1)))
        (fun baggageKey =>
      bind (decodeURIComponent (to_string (snd (key_val curr)))) (fun v =>
      Ok (obj_set o baggageKey v, s)))
    else Ok (o, append_entry s curr).
Proof.
  unfold parse_step, first_party. now destruct (key_val curr) as [key val].
Qed.

Lemma parse_step_third_party (o : object) (s curr : jsstring) :
  first_party curr = false ->
  parse_step (o, s) curr = Ok (o, append_entry s curr).
Proof. intros H. now rewrite parse_step_unfold, H. Qed.

Lemma parse_step_first_party (o o' : object) (s s' curr : jsstring) :
  first_party curr = true -> parse_step (o, s) curr = Ok (o', s') ->
  s' = s
  /\ exists k v,
       decodeURIComponent
         (to_string (nth_error (split dash (fst (key_val curr))) 1)) = Ok k
       /\ decodeURIComponent (to_string (snd (key_val curr))) = Ok v
       /\ o' = obj_set o k v.
Proof.
  intros H. rewrite parse_step_unfold, H. intros E.
  apply bind_Ok in E as (k & Hk & E). apply bind_Ok in E as (v & Hv & E).
  inversion E; subst. split; [reflexivity|]. now exists k, v.
Qed.

(** The third-party part after a reduction: the segments that fail the
    prefix test, appended in order. *)
Lemma parse_reduce_remainder (segs : list jsstring) :
  forall o s o' s',
    reduce parse_step segs (o, s) = Ok (o', s') ->
    s' = fold_left append_entry
           (filter (fun w => negb (first_party w)) segs) s.
Proof.
  induction segs as [|curr segs IH]; intros o s o' s' H;
    cbn [reduce filter] in *.
  - now inversion H.
  - apply bind_Ok in H as ([o1 s1] & Hstep & H).
    destruct (first_party curr) eqn:Hfp; cbn [negb].
    + apply parse_step_first_party in Hstep as [-> _]; [|assumption].
      eapply IH; eassumption.
    + rewrite parse_step_third_party in Hstep by assumption.
      inversion Hstep; subst. cbn [fold_left]. eapply IH; eassumption.
Qed.

Lemma join_cons (sep : code_unit) (w : jsstring) (l : list jsstring) :
  join sep (w :: l) = w ++ List.concat (map (cons sep) l).
Proof.
  revert w; induction l as [|w' l IH]; intros w.
  - simpl. now rewrite app_nil_r.
  - change (join sep (w :: w' :: l)) with (w ++ sep :: join sep (w' :: l)).
    now rewrite IH.
Qed.

Lemma fold_append_nonempty (l : list jsstring) (s : jsstring) :
  s <> [] -> fold_left append_entry l s = join comma (s :: l).
Proof.
  revert s; induction l as [|w l IH]; intros s Hs.
  - reflexivity.
  - cbn [fold_left]. rewrite append_entry_nonempty by assumption.
    rewrite IH by (destruct s; discriminate).
    rewrite !join_cons. cbn [map List.concat]. now rewrite <- app_assoc.
Qed.

Lemma fold_append_empty (l : list jsstring) :
  fold_left append_entry l [] = join comma (drop_empty l).
Proof.
  induction l as [|w l IH]; [reflexivity|].
  cbn [fold_left]. rewrite append_entry_empty.
  destruct w as [|c w]; [exact IH|].
  now rewrite fold_append_nonempty by discriminate.
Qed.

Lemma drop_empty_incl (l : list jsstring) (w : jsstring) :
  In w (drop_empty l) -> In w l.
Proof.
  induction l as [|x l IH]; [tauto|].
  destruct x as [|c x]; simpl; auto.
Qed.

Lemma drop_empty_keeps (l : list jsstring) (w : jsstring) :
  In w l -> w <> [] -> In w (drop_empty l).
Proof.
  induction l as [|x l IH]; [tauto|]. intros [->|H] Hw.
  - destruct w; [congruence | now left].
  - destruct x as [|c x]; simpl; auto.
Qed.

(** The third-party part of a parsed header is the comma-join of its
    third-party segments. *)
Lemma parse_remainder (h : jsstring) (o : object) (r : jsstring) :
  parseBaggageString h = Ok (o, r) -> r = join comma (third_party_segments h).
Proof.
  intros H. apply parse_reduce_remainder in H. subst r.
  apply fold_append_empty.
Qed.

Lemma third_party_segments_spec (h w : jsstring) :
  In w (third_party_segments h) ->
  In w (split comma h) /\ first_party w = false /\ ~ In comma w.
Proof.
  intros H. apply drop_empty_incl in H. apply filter_In in H as [H1 H2].
  apply negb_true_iff in H2. repeat split; auto.
  eapply split_pieces; eassumption.
Qed.

(** The segments of the third-party part: third-party segments of the
    input (or the single empty segment of an empty string). *)
Lemma parse_remainder_segments (h : jsstring) (o : object) (r w : jsstring) :
  parseBaggageString h = Ok (o, r) -> In w (split comma r) ->
  w = [] \/ (In w (split comma h) /\ first_party w = false).
Proof.
  intros H Hw. apply parse_remainder in H. subst r.
  destruct (third_party_segments h) as [|x l] eqn:E.
  - left. destruct Hw as [<-|[]]. reflexivity.
  - rewrite split_join in Hw.
    + rewrite <- E in Hw. apply third_party_segments_spec in Hw. tauto.
    + discriminate.
    + intros y Hy. rewrite <- E in Hy.
      now apply third_party_segments_spec in Hy.
Qed.

(** No segment of the third-party part passes the prefix test. *)
Lemma parse_remainder_third_party (h : jsstring) (o : object) (r w : jsstring) :
  parseBaggageString h = Ok (o, r) -> In w (split comma r) ->
  first_party w = false.
Proof.
  intros H Hw. destruct (parse_remainder_segments h o r w H Hw) as [->|[_ E]];
    [reflexivity | assumption].
Qed.

(** A header without first-party segments parses without an exception. *)
Lemma parse_third_party_only (segs : list jsstring) (o : object) (s : jsstring) :
  (forall w, In w segs -> first_party w = false) ->
  reduce parse_step segs (o, s) = Ok (o, fold_left append_entry segs s).
Proof.
  revert s; induction segs as [|curr segs IH]; intros s H; [reflexivity|].
  cbn [reduce fold_left].
  rewrite parse_step_third_party by (apply H; now left).
  cbn [bind]. apply IH. intros; apply H; now right.
Qed.

Lemma drop_empty_split (h : jsstring) :
  starts_with [comma] h = false ->
  join comma (drop_empty (split comma h)) = h.
Proof.
  destruct h as [|c h]; [reflexivity|]. intros H.
  cbn [starts_with] in H. rewrite andb_true_r in H.
  rewrite N.eqb_sym in H. apply N.eqb_neq in H.
  destruct (split_cons_other comma c h H) as (w & ws & _ & E).
  rewrite <- (join_split comma (c :: h)) at 2. now rewrite E.
Qed.

(** *** Keys and values of a segment *)

Lemma key_val_two (k v tail : jsstring) :
  ~ In equals k -> ~ In equals v -> (tail = [] \/ exists t, tail = equals :: t) ->
  key_val (k ++ equals :: v ++ tail) = (k, Some v).
Proof.
  intros Hk Hv Ht. unfold key_val. rewrite split_app_one by assumption.
  destruct Ht as [->|[t ->]].
  - rewrite app_nil_r, split_one by assumption. reflexivity.
  - rewrite split_app_one by assumption. reflexivity.
Qed.

Lemma prefix_has_no_dash_before : ~ In dash (js "sentry").
Proof. cbv. intuition discriminate. Qed.

(** After the prefix, a key without a further dash is the second of the two
    pieces that [split('-')] makes. *)
Lemma split_dash_key (k : jsstring) :
  ~ In dash k ->
  split dash (SENTRY_BAGGAGE_KEY_PREFIX ++ k) = [js "sentry"; k].
Proof.
  intros H.
  change (SENTRY_BAGGAGE_KEY_PREFIX ++ k) with (js "sentry" ++ dash :: k).
  rewrite split_app_one by exact prefix_has_no_dash_before.
  now rewrite split_one.
Qed.

Lemma first_party_prefixed (curr k : jsstring) :
  fst (key_val curr) = SENTRY_BAGGAGE_KEY_PREFIX ++ k -> first_party curr = true.
Proof.
  unfold first_party. intros ->. apply starts_with_app.
Qed.

Lemma first_party_inv (curr : jsstring) :
  first_party curr = true ->
  exists k, fst (key_val curr) = SENTRY_BAGGAGE_KEY_PREFIX ++ k.
Proof. unfold first_party. apply starts_with_inv. Qed.

(** The step on a first-party segment whose key has no dash after the
    prefix. *)
Lemma parse_step_stores (o : object) (s curr k : jsstring) :
  fst (key_val curr) = SENTRY_BAGGAGE_KEY_PREFIX ++ k -> ~ In dash k ->
  parse_step (o, s) curr
  = bind (decodeURIComponent k) (fun baggageKey =>
    bind (decodeURIComponent (to_string (snd (key_val curr)))) (fun v =>
    Ok (obj_set o baggageKey v, s))).
Proof.
  intros Hk Hd. rewrite parse_step_unfold.
  rewrite (first_party_prefixed curr k Hk), Hk, split_dash_key by assumption.
  reflexivity.
Qed.

(** ** The claims about the serializer *)

(** C10: with no first-party item the reduction has nothing to visit, so
    the third-party string is returned as it is, whatever its length; the
    length check is made only when a first-party entry is appended. *)
Theorem serialize_no_items (r : jsstring) :
  serializeBaggage (createBaggage [] (Some r)) = Ok r.
Proof. reflexivity. Qed.

(** C1 as stated fails: a third-party part of 8193 characters is returned
    whole, so the result is longer than 8192 characters (the first-party
    entry is the one that is left out). *)
Lemma serialize_size_counterexample :
  serializeBaggage (createBaggage [(js "a", js "1")] (Some (filler 8193)))
  = Ok (filler 8193)
  /\ MAX_BAGGAGE_STRING_LENGTH < str_length (filler 8193).
Proof. split; vm_compute; reflexivity. Qed.

(** C1, amended: when [serializeBaggage] returns, the result is at most
    8192 characters long provided the third-party part is; whatever the
    sizes, the result starts with the third-party part and every segment of
    a non-empty third-party part is a segment of the result.  It throws only
    when [encodeURIComponent] does on a key or value of the items. *)
Theorem serialize_size_bound (baggage : Baggage) :
  match serializeBaggage baggage with
  | Ok s =>
      (str_length (getThirdPartyBaggage baggage) <= MAX_BAGGAGE_STRING_LENGTH ->
       str_length s <= MAX_BAGGAGE_STRING_LENGTH)
      /\ (exists t, s = getThirdPartyBaggage baggage ++ t)
      /\ (getThirdPartyBaggage baggage <> [] ->
          forall w, In w (split comma (getThirdPartyBaggage baggage)) ->
                    In w (split comma s))
  | Throw _ =>
      exists k v, In (k, v) (fst baggage)
                  /\ (encodeURIComponent k = Throw URIError
                      \/ encodeURIComponent v = Throw URIError)
  end.
Proof.
  unfold serializeBaggage, getThirdPartyBaggage.
  destruct (reduce _ _ _) as [s|e] eqn:E.
  - apply serialize_reduce_bound in E as [Hlen Hkeep].
    repeat split; [assumption | now apply keeps_third_party_prefix |].
    intros Hne w. now apply keeps_third_party_segments.
  - apply reduce_throw in E as (a & key & Hkey & E).
    unfold serialize_step in E.
    destruct (baggage_entry baggage key) as [entry|e'] eqn:Hentry.
    + cbn [bind] in E. destruct (_ <? _); discriminate.
    + destruct (baggage_entry_throw baggage key e' Hkey Hentry) as (v & Hv).
      now exists key, v.
Qed.

Lemma serialize_size_bound_witness :
  str_length (js "other=xyz,sentry-a=1") <= MAX_BAGGAGE_STRING_LENGTH.
Proof.
  pose proof (serialize_size_bound
                (createBaggage [(js "a", js "1")] (Some (js "other=xyz")))) as H.
  apply H. vm_compute. discriminate.
Defined.

(** Whatever the items, the serializer returns when every key and value is
    ASCII text. *)
Lemma serialize_total_ascii (baggage : Baggage) :
  (forall k v, In (k, v) (fst baggage) -> is_ascii k /\ is_ascii v) ->
  exists s, serializeBaggage baggage = Ok s.
Proof.
  intros H. apply reduce_total. intros a key Hkey.
  destruct (obj_get_key _ _ Hkey) as [v Hv].
  destruct (H key v (obj_get_In _ _ _ Hv)) as [Hk Hv'].
  unfold serialize_step, baggage_entry. rewrite Hv. cbn [to_string].
  rewrite (encode_ascii key Hk), (encode_ascii v Hv'). cbn [bind].
  destruct (_ <? _); eauto.
Qed.

(** ** The claims about the parser *)

(** C7 as stated fails: the header [,a] has only third-party segments, but
    its leading empty segment is not kept, and the round trip returns [a]. *)
Lemma third_party_round_trip_counterexample :
  (forall w, In w (split comma (js ",a")) -> first_party w = false)
  /\ bind (parseBaggageString (js ",a")) serializeBaggage = Ok (js "a")
  /\ js "a" <> js ",a".
Proof.
  split; [|split; [reflexivity | discriminate]].
  intros w [<-|[<-|[]]]; reflexivity.
Qed.

(** C7, amended: for every header whose segments are all third-party and
    which does not begin with a comma, serializing the parsed header
    returns the header itself.  (Leading empty segments are the only text
    that is lost: the general result is the header without them.) *)
Theorem third_party_round_trip (h : jsstring) :
  (forall w, In w (split comma h) -> first_party w = false) ->
  starts_with [comma] h = false ->
  bind (parseBaggageString h) serializeBaggage = Ok h.
Proof.
  intros Hthird Hstart. unfold parseBaggageString.
  rewrite parse_third_party_only by assumption.
  rewrite fold_append_empty, drop_empty_split by assumption.
  reflexivity.
Qed.

Lemma third_party_round_trip_witness :
  bind (parseBaggageString (js "userId=alice,serverNode=DF%2028,x"))
       serializeBaggage
  = Ok (js "userId=alice,serverNode=DF%2028,x").
Proof.
  apply third_party_round_trip.
  - intros w [<-|[<-|[<-|[]]]]; reflexivity.
  - reflexivity.
Defined.

(** C5 as stated fails: the segment [sentry-foo] has no equals sign, yet it
    is stored into the items (with the text of [undefined] as its value)
    and does not reach the third-party part. *)
Lemma missing_equals_counterexample :
  ~ In equals (js "sentry-foo")
  /\ parseBaggageString (js "sentry-foo")
     = Ok ([(js "foo", js "undefined")], js "").
Proof. split; [cbv; intuition discriminate | reflexivity]. Qed.

(** C5, amended: a segment with no equals sign that does not begin with
    [sentry-] is not stored into the items: the step of the parser leaves
    the items as they are, appends the segment verbatim to the third-party
    part and does not throw; and when the parser returns, the segment (if
    not empty) is a segment of the third-party part. *)
Theorem missing_equals_third_party (h curr : jsstring) :
  In curr (split comma h) ->
  ~ In equals curr ->
  SENTRY_BAGGAGE_KEY_PREFIX_REGEX curr = false ->
  (forall baggageObj baggageString,
      parse_step (baggageObj, baggageString) curr
      = Ok (baggageObj, append_entry baggageString curr))
  /\ (forall o r, parseBaggageString h = Ok (o, r) -> curr <> [] ->
                  In curr (split comma r)).
Proof.
  intros Hin Heq Hre.
  assert (Hfp : first_party curr = false) by now rewrite first_party_segment.
  split.
  - intros o s. now apply parse_step_third_party.
  - intros o r Hparse Hne. apply parse_remainder in Hparse. subst r.
    assert (Hseg : In curr (third_party_segments h)).
    { apply drop_empty_keeps; [|assumption].
      apply filter_In. split; [assumption|]. now rewrite Hfp. }
    rewrite split_join; [assumption | |].
    + intros E. rewrite E in Hseg. contradiction.
    + intros y Hy. apply third_party_segments_spec in Hy. tauto.
Qed.

Lemma missing_equals_third_party_witness :
  parse_step ([], js "a=1") (js "flag") = Ok ([], js "a=1,flag")
  /\ In (js "flag") (split comma (js "a=1,flag")).
Proof.
  assert (H : In (js "flag") (split comma (js "a=1,flag,sentry-b=2"))
              /\ ~ In equals (js "flag")
              /\ SENTRY_BAGGAGE_KEY_PREFIX_REGEX (js "flag") = false).
  { split; [right; left; reflexivity|].
    split; [cbv; intuition discriminate | reflexivity]. }
  destruct H as (H1 & H2 & H3).
  destruct (missing_equals_third_party _ _ H1 H2 H3) as [Hstep Hseg].
  split.
  - apply Hstep.
  - apply (Hseg [(js "b", js "2")]); [reflexivity | discriminate].
Defined.

(** C4 as stated fails: in [sentry-a=b=c] the value stored is [b], the text
    between the first and the second equals sign, not [b=c]. *)
Lemma split_on_equals_counterexample :
  parseBaggageString (js "sentry-a=b=c") = Ok ([(js "a", js "b")], js "")
  /\ getBaggageValue ([(js "a", js "b")], js "") (js "a") <> Str (js "b=c").
Proof. split; [reflexivity | discriminate]. Qed.

(** C4, amended: the parser splits a segment on every equals sign and keeps
    the first two pieces: the key is the text before the first equals sign
    and the value the text between the first and the second one (all the
    text after the first when there is no second).  For a first-party
    segment the text from a second equals sign on is ignored; a third-party
    segment is passed on whole. *)
Theorem split_on_equals (k v tail : jsstring) (acc : Baggage) :
  ~ In equals k -> ~ In equals v ->
  (tail = [] \/ exists t, tail = equals :: t) ->
  key_val (k ++ equals :: v ++ tail) = (k, Some v)
  /\ (SENTRY_BAGGAGE_KEY_PREFIX_REGEX k = true ->
      parse_step acc (k ++ equals :: v ++ tail)
      = parse_step acc (k ++ equals :: v))
  /\ (SENTRY_BAGGAGE_KEY_PREFIX_REGEX k = false ->
      parse_step acc (k ++ equals :: v ++ tail)
      = Ok (fst acc, append_entry (snd acc) (k ++ equals :: v ++ tail))).
Proof.
  intros Hk Hv Ht. pose proof (key_val_two k v tail Hk Hv Ht) as E.
  pose proof (key_val_two k v [] Hk Hv (or_introl eq_refl)) as E0.
  rewrite app_nil_r in E0. destruct acc as [o s].
  split; [assumption|]. split; intros Hre.
  - rewrite !parse_step_unfold. unfold first_party. rewrite E, E0.
    cbn [fst snd]. now rewrite Hre.
  - apply parse_step_third_party. unfold first_party. now rewrite E.
Qed.

Lemma split_on_equals_witness :
  key_val (js "sentry-a=b=c") = (js "sentry-a", Some (js "b"))
  /\ parse_step ([], []) (js "sentry-a=b=c")
     = parse_step ([], []) (js "sentry-a=b").
Proof.
  destruct (split_on_equals (js "sentry-a") (js "b") (js "=c") ([], []))
    as (H1 & H2 & _).
  - cbv; intuition discriminate.
  - cbv; intuition discriminate.
  - right. now exists (js "c").
  - split; [exact H1 | exact (H2 eq_refl)].
Defined.

(** ** Round trip of first-party items *)

Lemma printableb_spec (s : jsstring) : printableb s = true -> printable s.
Proof.
  unfold printableb, printable. rewrite forallb_forall, Forall_forall.
  intros H c Hc. specialize (H c Hc). unfold in_range in H.
  apply andb_true_iff in H as [H1 H2].
  apply N.leb_le in H1, H2. lia.
Qed.

Lemma baggage_entry_ascii (o : object) (r k v : jsstring) :
  NoDup (keys o) -> In (k, v) o -> is_ascii k -> is_ascii v ->
  baggage_entry (o, r) k = Ok (entry_text (k, v)).
Proof.
  intros Hnd Hin Hk Hv. unfold baggage_entry. cbn [fst].
  rewrite (obj_get_unique o k v Hnd Hin). cbn [to_string].
  now rewrite (encode_ascii k Hk), (encode_ascii v Hv).
Qed.

Lemma unbounded_reduce_ascii (o : object) (r : jsstring) (l : object) :
  NoDup (keys o) ->
  (forall k v, In (k, v) l -> In (k, v) o /\ is_ascii k /\ is_ascii v) ->
  forall init,
    reduce (unbounded_step (o, r)) (keys l) init
    = Ok (fold_left append_entry (map entry_text l) init).
Proof.
  intros Hnd. induction l as [|[k v] l IH]; intros H init; [reflexivity|].
  cbn [keys map fst reduce fold_left]. unfold unbounded_step at 1.
  destruct (H k v (or_introl eq_refl)) as (Hin & Hk & Hv).
  rewrite (baggage_entry_ascii o r k v Hnd Hin Hk Hv). cbn [bind].
  apply IH. intros k' v' H'. apply H. now right.
Qed.

Lemma unbounded_reduce_grows (b : Baggage) (l : list jsstring) (init t : jsstring) :
  reduce (unbounded_step b) l init = Ok t -> str_length init <= str_length t.
Proof.
  apply (reduce_invariant (unbounded_step b)
           (fun a => str_length init <= str_length a) l); [|lia].
  intros a x a' _ Ha Hstep. unfold unbounded_step in Hstep.
  apply bind_Ok in Hstep as (e & _ & E). inversion E; subst.
  pose proof (append_entry_length a e). lia.
Qed.

(** When the unbounded serialization fits the limit, no entry is left
    out. *)
Lemma serialize_no_drop (b : Baggage) (l : list jsstring) :
  forall init t,
    reduce (unbounded_step b) l init = Ok t ->
    str_length t <= MAX_BAGGAGE_STRING_LENGTH ->
    reduce (serialize_step b) l init = Ok t.
Proof.
  induction l as [|key l IH]; intros init t H Ht; [assumption|].
  cbn [reduce] in *. apply bind_Ok in H as (a & Hstep & H).
  unfold unbounded_step in Hstep. apply bind_Ok in Hstep as (e & He & E).
  inversion E; subst a. unfold serialize_step. rewrite He. cbn [bind].
  pose proof (unbounded_reduce_grows b l _ t H) as Hgrow.
  destruct (N.ltb_spec MAX_BAGGAGE_STRING_LENGTH
              (str_length (append_entry init e))) as [Hlt|Hle]; [lia|].
  cbn [bind]. now apply IH.
Qed.

Lemma prefix_has_no_equals : ~ In equals SENTRY_BAGGAGE_KEY_PREFIX.
Proof. cbv. intuition discriminate. Qed.

Lemma prefix_has_no_comma : ~ In comma SENTRY_BAGGAGE_KEY_PREFIX.
Proof. cbv. intuition discriminate. Qed.

Lemma entry_text_no_comma (kv : jsstring * jsstring) :
  is_ascii (fst kv) -> is_ascii (snd kv) -> ~ In comma (entry_text kv).
Proof.
  intros Hk Hv H. unfold entry_text in H.
  apply in_app_or in H as [H|H]; [now apply prefix_has_no_comma|].
  apply in_app_or in H as [H|[H|H]].
  - now apply (ascii_encode_chars _ _ Hk) in H.
  - discriminate H.
  - now apply (ascii_encode_chars _ _ Hv) in H.
Qed.

(** The parser on an entry written by the serializer, for an ASCII key
    without a dash. *)
Lemma parse_step_entry (o : object) (s k v : jsstring) :
  is_ascii k -> is_ascii v -> ~ In dash k ->
  parse_step (o, s) (entry_text (k, v)) = Ok (obj_set o k v, s).
Proof.
  intros Hk Hv Hd.
  assert (E : key_val (entry_text (k, v))
              = (SENTRY_BAGGAGE_KEY_PREFIX ++ ascii_encode k,
                 Some (ascii_encode v))).
  { unfold entry_text. cbn [fst snd]. rewrite app_assoc.
    rewrite <- (app_nil_r (ascii_encode v)) at 1.
    apply key_val_two; [| |now left].
    - intros H. apply in_app_or in H as [H|H];
        [now apply prefix_has_no_equals|].
      now apply (ascii_encode_chars _ _ Hk) in H.
    - intros H. now apply (ascii_encode_chars _ _ Hv) in H. }
  rewrite (parse_step_stores o s _ (ascii_encode k)).
  - rewrite E. cbn [snd to_string].
    now rewrite (decode_encode_ascii k Hk), (decode_encode_ascii v Hv).
  - now rewrite E.
  - intros H. apply (ascii_encode_chars _ _ Hk) in H. tauto.
Qed.

Lemma parse_entries (l : object) :
  (forall k v, In (k, v) l -> is_ascii k /\ is_ascii v /\ ~ In dash k) ->
  forall o s,
    reduce parse_step (map entry_text l) (o, s) = Ok (assign o l, s).
Proof.
  induction l as [|[k v] l IH]; intros H o s; [reflexivity|].
  cbn [map reduce]. destruct (H k v (or_introl eq_refl)) as (Hk & Hv & Hd).
  rewrite parse_step_entry by assumption. cbn [bind].
  rewrite IH by (intros k' v' H'; apply H; now right). reflexivity.
Qed.

(** The whole round trip on the comma-join of the entries. *)
Lemma parse_joined_entries (l : object) :
  (forall k v, In (k, v) l -> is_ascii k /\ is_ascii v /\ ~ In dash k) ->
  parseBaggageString (fold_left append_entry (map entry_text l) [])
  = Ok (assign [] l, []).
Proof.
  intros H. destruct l as [|[k v] l]; [reflexivity|].
  unfold parseBaggageString.
  cbn [map fold_left]. rewrite append_entry_empty.
  rewrite fold_append_nonempty by discriminate.
  change (entry_text (k, v) :: map entry_text l)
    with (map entry_text ((k, v) :: l)).
  rewrite split_join.
  - now apply parse_entries.
  - discriminate.
  - intros w Hw. apply in_map_iff in Hw as ([k' v'] & <- & Hin).
    destruct (H k' v' Hin) as (Hk & Hv & _). now apply entry_text_no_comma.
Qed.

(** C3 as stated fails on two mappings of printable ASCII text.  A mapping
    whose single entry is longer than 8192 characters serializes to the
    empty string, and nothing comes back.  A key with a dash comes back cut
    at the dash: [foo-bar] is written as [sentry-foo-bar=1] and read as
    [foo]. *)
Lemma first_party_round_trip_counterexample :
  (printable (js "a") /\ printable (filler 8190)
   /\ bind (serializeBaggage (createBaggage [(js "a", filler 8190)] None))
           parseBaggageString
      = Ok ([], js ""))
  /\ (printable (js "foo-bar") /\ printable (js "1")
      /\ bind (serializeBaggage (createBaggage [(js "foo-bar", js "1")] None))
              parseBaggageString
         = Ok ([(js "foo", js "1")], js "")).
Proof.
  repeat split; try (apply printableb_spec; vm_compute; reflexivity);
    vm_compute; reflexivity.
Qed.

(** C3, amended: for every mapping of printable-ASCII keys and values whose
    keys contain no dash and whose unbounded serialization is at most 8192
    characters long, parsing the serialized mapping returns items with the
    same value at every key (and an empty third-party part).  Keys and
    values may contain equals signs and commas, values also dashes. *)
Theorem first_party_round_trip (items : object) (t : jsstring) :
  NoDup (keys items) ->
  (forall k v, In (k, v) items -> printable k /\ printable v /\ ~ In dash k) ->
  unbounded_serialization (createBaggage items None) = Ok t ->
  str_length t <= MAX_BAGGAGE_STRING_LENGTH ->
  exists parsed,
    bind (serializeBaggage (createBaggage items None)) parseBaggageString
    = Ok (parsed, [])
    /\ forall k, obj_get parsed k = obj_get items k.
Proof.
  intros Hnd Hitems Hunb Hlen.
  assert (Hascii : forall k v, In (k, v) items ->
                     is_ascii k /\ is_ascii v /\ ~ In dash k).
  { intros k v H. destruct (Hitems k v H) as (Hk & Hv & Hd).
    auto using printable_ascii. }
  exists (assign [] items). split.
  - unfold serializeBaggage.
    rewrite (serialize_no_drop _ _ _ t Hunb Hlen). cbn [bind].
    unfold unbounded_serialization, createBaggage in Hunb. cbn [fst snd] in Hunb.
    rewrite unbounded_reduce_ascii in Hunb; [|assumption|].
    + inversion Hunb. now apply parse_joined_entries.
    + intros k v H. destruct (Hascii k v H) as (Hk & Hv & _). auto.
  - intros k. unfold assign.
    rewrite obj_get_fold_set by assumption.
    now destruct (obj_get items k).
Qed.

Lemma first_party_round_trip_witness :
  exists parsed,
    bind (serializeBaggage
            (createBaggage [(js "a=b", js "x,y-z =1"); (js "c", js "d")] None))
         parseBaggageString
    = Ok (parsed, [])
    /\ forall k, obj_get parsed k
                 = obj_get [(js "a=b", js "x,y-z =1"); (js "c", js "d")] k.
Proof.
  apply (first_party_round_trip _
           (js "sentry-a%3Db=x%2Cy-z%20%3D1,sentry-c=d")).
  - repeat constructor; cbv; intuition discriminate.
  - intros k v [H|[H|[]]]; inversion H; subst;
      (split; [apply printableb_spec; reflexivity|]);
      (split; [apply printableb_spec; reflexivity|]);
      cbv; intuition discriminate.
  - reflexivity.
  - vm_compute. discriminate.
Defined.

(** The unbounded serialization of ASCII items never throws: the size
    condition above is about a string that exists. *)
Lemma unbounded_serialization_ascii (items : object) :
  NoDup (keys items) ->
  (forall k v, In (k, v) items -> is_ascii k /\ is_ascii v) ->
  unbounded_serialization (createBaggage items None)
  = Ok (fold_left append_entry (map entry_text items) []).
Proof.
  intros Hnd H. unfold unbounded_serialization, createBaggage. cbn [fst snd].
  apply unbounded_reduce_ascii; [assumption|]. intros k v Hin.
  destruct (H k v Hin). auto.
Qed.

(** C2 as stated fails in two ways.  The prefix test is made on the key as
    written, not on the decoded key: in [%73entry-a=1] the decoded key is
    [sentry-a], and the segment goes to the third-party part.  And a key
    with a dash after the prefix is cut at that dash: [sentry-foo-bar] is
    stored as [foo]. *)
Lemma first_party_key_counterexample :
  (fmap (starts_with SENTRY_BAGGAGE_KEY_PREFIX)
        (decodeURIComponent (fst (key_val (js "%73entry-a=1")))) = Ok true
   /\ parseBaggageString (js "%73entry-a=1") = Ok ([], js "%73entry-a=1"))
  /\ (parseBaggageString (js "sentry-foo-bar=1")
      = Ok ([(js "foo", js "1")], js "")
      /\ obj_get [(js "foo", js "1")] (js "foo-bar") = None).
Proof. repeat split; reflexivity. Qed.

(** A later key with a dash after the prefix is cut at that dash, and can
    replace the value of an earlier key. *)
Example later_dashed_key_sample :
  parseBaggageString (js "sentry-a=1,sentry-a-b=2")
  = Ok ([(js "a", js "2")], js "").
Proof. reflexivity. Qed.

(** C2, amended: take a segment whose key, as written, begins with
    [sentry-] and has no dash after the prefix, and which has a value (the
    text between the first and the second equals sign), in a header where
    every later segment whose key, as written, begins with [sentry-] has no
    dash after the prefix either, and a remaining key that does not decode
    to the same key.  Then the parser, when it returns, has stored the
    decoded remaining key of the segment with its decoded value: of the
    segments that carry one first-party key the last one is stored. *)
Theorem first_party_key_stored (h : jsstring) (o : object) (r : jsstring)
  (pre post : list jsstring) (seg k v K V : jsstring) :
  parseBaggageString h = Ok (o, r) ->
  split comma h = pre ++ seg :: post ->
  key_val seg = (SENTRY_BAGGAGE_KEY_PREFIX ++ k, Some v) ->
  ~ In dash k ->
  decodeURIComponent k = Ok K ->
  decodeURIComponent v = Ok V ->
  (forall seg' k', In seg' post ->
     fst (key_val seg') = SENTRY_BAGGAGE_KEY_PREFIX ++ k' ->
     ~ In dash k' /\ decodeURIComponent k' <> Ok K) ->
  getBaggageValue (o, r) K = Str V.
Proof.
  intros Hparse Hsplit Hkv Hd HK HV Hpost.
  unfold parseBaggageString in Hparse. rewrite Hsplit, reduce_app in Hparse.
  apply bind_Ok in Hparse as ([o1 s1] & _ & Hparse).
  cbn [reduce] in Hparse. apply bind_Ok in Hparse as ([o2 s2] & Hstep & Hparse).
  rewrite (parse_step_stores o1 s1 seg k) in Hstep
    by (assumption || now rewrite Hkv).
  rewrite Hkv, HK in Hstep. cbn [snd to_string bind] in Hstep.
  rewrite HV in Hstep. cbn [bind] in Hstep. inversion Hstep; subst o2 s2.
  unfold getBaggageValue. cbn [fst]. apply obj_read_own.
  apply (reduce_invariant parse_step
           (fun b => obj_get (fst b) K = Some V) post)
    with (init := (obj_set o1 K V, s1)) (r := (o, r)); [| |assumption].
  - intros [oa sa] seg' [ob sb] Hin Ha Hs. cbn [fst] in *.
    destruct (first_party seg') eqn:Hfp.
    + destruct (first_party_inv seg' Hfp) as [k' Hk'].
      destruct (Hpost seg' k' Hin Hk') as [Hd' Hne].
      rewrite (parse_step_stores oa sa seg' k' Hk' Hd') in Hs.
      apply bind_Ok in Hs as (K' & HK' & Hs).
      apply bind_Ok in Hs as (V' & _ & Hs). inversion Hs; subst.
      rewrite obj_get_set.
      destruct (str_eqb K' K) eqn:E; [|assumption].
      apply str_eqb_eq in E. congruence.
    + rewrite parse_step_third_party in Hs by assumption.
      now inversion Hs; subst.
  - cbn [fst]. now rewrite obj_get_set, str_eqb_refl.
Qed.

Lemma first_party_key_stored_witness :
  getBaggageValue ([(js "a b", js "2"); (js "c", js "3")], js "x=y")
                  (js "a b")
  = Str (js "2").
Proof.
  apply (first_party_key_stored
           (js "sentry-a%20b=1,x=y,sentry-a%20b=2,sentry-c=3")
           _ _ [js "sentry-a%20b=1"; js "x=y"] [js "sentry-c=3"]
           (js "sentry-a%20b=2") (js "a%20b") (js "2")).
  - reflexivity.
  - reflexivity.
  - reflexivity.
  - cbv; intuition discriminate.
  - reflexivity.
  - reflexivity.
  - intros seg' k' [<-|[]] E.
    change (fst (key_val (js "sentry-c=3")))
      with (SENTRY_BAGGAGE_KEY_PREFIX ++ js "c") in E.
    apply app_inv_head in E. subst k'.
    split; [cbv; intuition discriminate | discriminate].
Defined.

(** C8: the serializer writes the key [foo-bar] as [sentry-foo-bar]; after
    parsing [sentry-foo-bar=1] the items have the key [foo], and no segment
    of the input has the key [sentry-foo]: the parser takes the second of
    the pieces that [split('-')] makes, so the key is cut at the first dash
    after the prefix. *)
Theorem items_key_not_in_input :
  serializeBaggage (createBaggage [(js "foo-bar", js "1")] None)
  = Ok (js "sentry-foo-bar=1")
  /\ exists o r,
       parseBaggageString (js "sentry-foo-bar=1") = Ok (o, r)
       /\ In (js "foo") (keys o)
       /\ forall seg, In seg (split comma (js "sentry-foo-bar=1")) ->
            fst (key_val seg) <> SENTRY_BAGGAGE_KEY_PREFIX ++ js "foo".
Proof.
  split; [reflexivity|].
  exists [(js "foo", js "1")], (js ""). repeat split.
  - now left.
  - intros seg [<-|[]]. discriminate.
Qed.

(** ** Merging *)

Lemma hex_digit_no_comma (n : N) : hex_digit n <> comma.
Proof. unfold hex_digit, comma. destruct (n <? 10); lia. Qed.

Lemma percent_octets_no_comma (bs : list N) : ~ In comma (percent_octets bs).
Proof.
  induction bs as [|b bs IH]; [intros []|].
  unfold percent_octets. cbn [flat_map]. intros H.
  apply in_app_or in H as [H|H]; [|now apply IH].
  destruct H as [H|[H|[H|[]]]]; try discriminate H;
    now apply hex_digit_no_comma in H.
Qed.

Lemma unescaped_no_comma (c : N) : uri_unescaped c = true -> c <> comma.
Proof. intros H ->. discriminate H. Qed.

(** Whatever the text, its encoding contains no comma. *)
Lemma encode_no_comma (s : jsstring) :
  forall t, encodeURIComponent s = Ok t -> ~ In comma t.
Proof.
  assert (H : forall n s, (List.length s <= n)%nat ->
                forall t, encodeURIComponent s = Ok t -> ~ In comma t).
  { clear s. induction n as [|n IH]; intros s Hlen t E.
    - destruct s; [|simpl in Hlen; lia]. inversion E. intros [].
    - destruct s as [|c r]; [inversion E; intros []|].
      simpl in Hlen. cbn [encodeURIComponent] in E.
      destruct (uri_unescaped c) eqn:Hu.
      + apply fmap_Ok in E as (t' & E & ->).
        intros [H|H]; [now apply unescaped_no_comma in Hu|].
        apply (IH r) in E; [tauto | lia].
      + destruct (is_trail_surrogate c); [discriminate|].
        destruct (is_lead_surrogate c).
        * destruct r as [|d r']; [discriminate|].
          destruct (is_trail_surrogate d); [|discriminate].
          apply fmap_Ok in E as (t' & E & ->). intros H.
          apply in_app_or in H as [H|H];
            [now apply percent_octets_no_comma in H|].
          apply (IH r') in E; [tauto | simpl in Hlen; lia].
        * apply fmap_Ok in E as (t' & E & ->). intros H.
          apply in_app_or in H as [H|H];
            [now apply percent_octets_no_comma in H|].
          apply (IH r) in E; [tauto | lia]. }
  apply (H (List.length s)). lia.
Qed.

Lemma baggage_entry_is_entry (b : Baggage) (key e : jsstring) :
  In key (keys (fst b)) -> baggage_entry b key = Ok e ->
  is_entry (fst b) e /\ ~ In comma e.
Proof.
  intros Hkey H. destruct (obj_get_key _ _ Hkey) as [v Hv].
  unfold baggage_entry in H. rewrite Hv in H. cbn [to_string] in H.
  apply bind_Ok in H as (ek & Hek & H). apply bind_Ok in H as (ev & Hev & H).
  injection H as <-. split.
  - exists key, v, ek, ev. auto using obj_get_In.
  - intros Hin.
    change (In comma (SENTRY_BAGGAGE_KEY_PREFIX ++ ek ++ equals :: ev)) in Hin.
    apply in_app_or in Hin as [Hin|Hin];
      [now apply prefix_has_no_comma|].
    apply in_app_or in Hin as [Hin|[Hin|Hin]].
    + now apply (encode_no_comma key ek) in Hin.
    + discriminate Hin.
    + now apply (encode_no_comma v ev) in Hin.
Qed.

(** Every segment of the serialization is a segment of the third-party
    part or an entry of the items. *)
Lemma serialize_segments (b : Baggage) (r w : jsstring) :
  serializeBaggage b = Ok r -> In w (split comma r) ->
  In w (split comma (snd b)) \/ is_entry (fst b) w.
Proof.
  intros H. revert w.
  apply (reduce_invariant (serialize_step b)
           (fun a => forall w, In w (split comma a) ->
                       In w (split comma (snd b)) \/ is_entry (fst b) w)
           (keys (fst b))) with (init := snd b); [|auto|exact H].
  intros a key a' Hkey Ha Hstep w Hw.
  apply serialize_step_cases in Hstep as (e & He & [->|[-> _]]); [auto|].
  destruct (baggage_entry_is_entry b key e Hkey He) as [Hentry Hcomma].
  destruct a as [|c a].
  - rewrite append_entry_empty, split_one in Hw by assumption.
    destruct Hw as [<-|[]]. now right.
  - rewrite append_entry_nonempty, split_app in Hw by discriminate.
    apply in_app_or in Hw as [Hw|Hw]; [auto|].
    rewrite split_one in Hw by assumption.
    destruct Hw as [<-|[]]. now right.
Qed.

(** The merge, when an incoming baggage is given, is the serialization of
    its items after the third-party part of the header. *)
Lemma merge_unfold (incoming : Baggage) (header : jsstring) :
  mergeAndSerializeBaggage (Some incoming) (Some header)
  = bind (parseBaggageString header) (fun headerBaggage =>
      serializeBaggage
        (createBaggage (fst incoming)
                       (Some (getThirdPartyBaggage headerBaggage)))).
Proof.
  unfold mergeAndSerializeBaggage.
  destruct header as [|c header]; [reflexivity|].
  cbn [truthy is_empty negb to_string].
  destruct (parseBaggageString (c :: header)) as [[o third]|e];
    [|reflexivity].
  cbn [fmap bind option_map getThirdPartyBaggage snd].
  now destruct third.
Qed.

(** The merge returns whenever the header can be parsed and the incoming
    keys and values are ASCII text. *)
Lemma merge_returns (incoming parsed : Baggage) (header : jsstring) :
  parseBaggageString header = Ok parsed ->
  (forall k v, In (k, v) (fst incoming) -> is_ascii k /\ is_ascii v) ->
  exists r, mergeAndSerializeBaggage (Some incoming) (Some header) = Ok r.
Proof.
  intros Hparse Hitems. rewrite merge_unfold, Hparse. cbn [bind].
  now apply serialize_total_ascii.
Qed.

(** C6: when the merge returns, the result is the serialization of the
    incoming items after the third-party part of the header; every segment
    of the result is a third-party segment of the header or an entry of the
    incoming items (or empty), so a first-party segment of the header can
    be found in the result only if it is, character for character, an
    entry of the incoming items. *)
Theorem merge_discards_foreign_items (incoming : Baggage) (header r : jsstring) :
  mergeAndSerializeBaggage (Some incoming) (Some header) = Ok r ->
  (exists foreign third,
      parseBaggageString header = Ok (foreign, third)
      /\ serializeBaggage (createBaggage (fst incoming) (Some third)) = Ok r)
  /\ (forall w, In w (split comma r) ->
        w = []
        \/ (In w (split comma header)
            /\ SENTRY_BAGGAGE_KEY_PREFIX_REGEX w = false)
        \/ is_entry (fst incoming) w)
  /\ (forall w, In w (split comma header) ->
        SENTRY_BAGGAGE_KEY_PREFIX_REGEX w = true ->
        In w (split comma r) -> is_entry (fst incoming) w).
Proof.
  rewrite merge_unfold. intros H.
  apply bind_Ok in H as ([foreign third] & Hparse & Hser).
  cbn [getThirdPartyBaggage snd] in Hser.
  assert (Hsegs : forall w, In w (split comma r) ->
            w = []
            \/ (In w (split comma header)
                /\ SENTRY_BAGGAGE_KEY_PREFIX_REGEX w = false)
            \/ is_entry (fst incoming) w).
  { intros w Hw.
    destruct (serialize_segments _ r w Hser Hw) as [Hthird|Hentry];
      [|now right; right].
    cbn [createBaggage snd] in Hthird.
    destruct (parse_remainder_segments header foreign third w Hparse Hthird)
      as [->|[Hin Hfp]]; [now left|].
    right; left. now rewrite <- first_party_segment. }
  split; [now exists foreign, third|]. split; [exact Hsegs|].
  intros w Hin Hre Hw.
  destruct (Hsegs w Hw) as [->|[[_ E]|E]];
    [discriminate Hre | congruence | exact E].
Qed.

Lemma merge_discards_foreign_items_witness :
  mergeAndSerializeBaggage (Some ([(js "a", js "1")], js "ignored"))
                           (Some (js "sentry-a=evil,other=1"))
  = Ok (js "other=1,sentry-a=1")
  /\ exists foreign third,
       parseBaggageString (js "sentry-a=evil,other=1") = Ok (foreign, third)
       /\ serializeBaggage (createBaggage [(js "a", js "1")] (Some third))
          = Ok (js "other=1,sentry-a=1").
Proof.
  split; [reflexivity|].
  apply (merge_discards_foreign_items
           ([(js "a", js "1")], js "ignored")
           (js "sentry-a=evil,other=1") (js "other=1,sentry-a=1")).
  reflexivity.
Defined.

(** ** The correlator *)

Module CorrelatorFacts.
Import Correlator CorrelatorInvariant.

















End CorrelatorFacts.



(** ** Further properties of the baggage functions *)

(** *** Reading, writing and emptiness *)

Lemma obj_set_not_nil (o : object) (k v : jsstring) : obj_set o k v <> [].
Proof.
  unfold obj_set. destruct (has_key o k) eqn:E.
  - apply has_key_spec in E. destruct o as [|[k' v'] o]; [destruct E|].
    cbn [update]. destruct (str_eqb k' k); discriminate.
  - destruct (array_index k) as [i|].
    + destruct o as [|[k' v'] o]; cbn [insert_index]; [discriminate|].
      destruct (array_index k') as [j|]; [destruct (j <? i)|]; discriminate.
    + destruct o; discriminate.
Qed.

Example prototype_sample :
  setBaggageValue ([], js "") proto_name (js "x") = ([], js "")
  /\ getBaggageValue ([], js "") (js "toString") = Inherited (js "toString")
  /\ getBaggageValue ([], js "") (js "release") = Undefined
  /\ setBaggageValue ([], js "") (js "toString") (js "x")
     = ([(js "toString", js "x")], js "").
Proof. repeat split; reflexivity. Qed.

(** X1: a value written with [setBaggageValue] is the one read back with
    [getBaggageValue], for every key but [__proto__]; writing [__proto__]
    into items that have no such property of their own changes nothing,
    since the setter inherited from [Object.prototype] ignores a string.
    Every other key reads as before, and the third-party part is
    untouched. *)
Theorem get_after_set (baggage : Baggage) (key val : jsstring) :
  (key <> proto_name \/ In key (keys (fst baggage)) ->
     getBaggageValue (setBaggageValue baggage key val) key = Str val)
  /\ (key = proto_name -> ~ In key (keys (fst baggage)) ->
        setBaggageValue baggage key val = baggage
        /\ getBaggageValue (setBaggageValue baggage key val) key
           = Inherited proto_name)
  /\ (forall other, other <> key ->
        getBaggageValue (setBaggageValue baggage key val) other
        = getBaggageValue baggage other)
  /\ getThirdPartyBaggage (setBaggageValue baggage key val)
     = getThirdPartyBaggage baggage.
Proof.
  unfold getBaggageValue, setBaggageValue, getThirdPartyBaggage.
  destruct baggage as [o r]. cbn [fst snd].
  destruct (obj_assign_cases o key val) as [[E H]|(E & Hk & Hn)]; rewrite E.
  - split; [|split; [|split]].
    + intros _. apply obj_read_own. now rewrite obj_get_set, str_eqb_refl.
    + intros Hk Hn. destruct H; contradiction.
    + intros other Hne. unfold obj_read. rewrite obj_get_set.
      destruct (str_eqb key other) eqn:E'; [|reflexivity].
      apply str_eqb_eq in E'. congruence.
    + reflexivity.
  - split; [|split; [|split]].
    + intros [H|H]; contradiction.
    + intros _ _. split; [reflexivity|]. subst key. unfold obj_read.
      now rewrite (obj_get_not_key o proto_name Hn).
    + reflexivity.
    + reflexivity.
Qed.

(** X2: [isBaggageEmpty] holds exactly when no key reads as a string,
    whatever the third-party part is (a name of [Object.prototype] still
    reads as the inherited value).  It does not hold after
    [setBaggageValue] with a key other than [__proto__]; after writing
    [__proto__] it holds as before. *)
Theorem empty_iff_no_value (baggage : Baggage) :
  (isBaggageEmpty baggage = true
   <-> forall key v, getBaggageValue baggage key <> Str v)
  /\ (forall key val, key <> proto_name ->
        isBaggageEmpty (setBaggageValue baggage key val) = false)
  /\ (forall val, isBaggageEmpty baggage = true ->
        isBaggageEmpty (setBaggageValue baggage proto_name val) = true).
Proof.
  unfold isBaggageEmpty, getBaggageValue, setBaggageValue.
  destruct baggage as [o r]. cbn [fst].
  split; [split|split].
  - destruct o as [|[k v] o]; [|discriminate].
    intros _ key v. unfold obj_read. cbn [obj_get].
    destruct (existsb _ _); discriminate.
  - destruct o as [|[k v] o]; [reflexivity|].
    intros H. exfalso. apply (H k v). apply obj_read_own.
    cbn [obj_get]. now rewrite str_eqb_refl.
  - intros key val Hne.
    destruct (obj_assign_cases o key val) as [[E _]|(_ & Hk & _)];
      [|contradiction].
    rewrite E. pose proof (obj_set_not_nil o key val) as H.
    destruct (obj_set o key val); [congruence | reflexivity].
  - intros val. destruct o as [|[k v] o]; [reflexivity | discriminate].
Qed.

(** *** Merging when an argument is missing *)

(** X3: without an incoming baggage the merge returns the third-party part
    of the parsed header, and the empty string when there is no header
    either (or an empty one). *)
Theorem merge_without_incoming (header : value) :
  mergeAndSerializeBaggage None header
  = match header with
    | Some h => fmap getThirdPartyBaggage (parseBaggageString h)
    | None => Ok []
    end.
Proof.
  destruct header as [[|c h]|]; [reflexivity| |reflexivity].
  unfold mergeAndSerializeBaggage. cbn [truthy is_empty negb to_string].
  destruct (parseBaggageString (c :: h)) as [[o third]|e]; [|reflexivity].
  cbn [fmap bind option_map getThirdPartyBaggage snd].
  now destruct third.
Qed.

(** *** What the parser returns, and when it throws *)

Lemma error_unique (e : error) : e = URIError.
Proof. now destruct e. Qed.

Lemma reduce_throw_iff {A B} (f : A -> B -> result A) (C : B -> Prop)
  (l : list B) :
  (forall a x, f a x = Throw URIError <-> C x) ->
  forall init,
    reduce f l init = Throw URIError <-> exists x, In x l /\ C x.
Proof.
  intros Hf. induction l as [|x l IH]; intros init; cbn [reduce].
  - split; [discriminate | intros (x & [] & _)].
  - destruct (f init x) as [a|e] eqn:E; cbn [bind].
    + rewrite IH. split.
      * intros (y & Hy & Cy). exists y. split; [now right | assumption].
      * intros (y & [<-|Hy] & Cy); [|now exists y].
        apply (Hf init) in Cy. congruence.
    + rewrite (error_unique e) in *. split; [|reflexivity].
      intros _. exists x. split; [now left | now apply (Hf init)].
Qed.

Lemma parse_step_throws (acc : Baggage) (curr : jsstring) :
  parse_step acc curr = Throw URIError
  <-> first_party curr = true
      /\ (decodeURIComponent
            (to_string (nth_error (split dash (fst (key_val curr))) 1))
          = Throw URIError
          \/ decodeURIComponent (to_string (snd (key_val curr)))
             = Throw URIError).
Proof.
  destruct acc as [o s]. rewrite parse_step_unfold.
  destruct (first_party curr); [|split; [discriminate | intros [H _]; discriminate]].
  destruct (decodeURIComponent
              (to_string (nth_error (split dash (fst (key_val curr))) 1)))
    as [k|e]; cbn [bind].
  - destruct (decodeURIComponent (to_string (snd (key_val curr)))) as [v|e];
      cbn [bind].
    + split; [discriminate | intros [_ [H|H]]; discriminate].
    + rewrite (error_unique e). split; auto.
  - rewrite (error_unique e). split; auto.
Qed.

(** X4: the parser throws exactly when, in some segment that begins with
    [sentry-], the piece it takes for the key or the piece it takes for the
    value cannot be percent-decoded; third-party segments never make it
    throw. *)
Theorem parse_throws_iff (h : jsstring) :
  parseBaggageString h = Throw URIError
  <-> exists seg,
        In seg (split comma h)
        /\ SENTRY_BAGGAGE_KEY_PREFIX_REGEX seg = true
        /\ (decodeURIComponent
              (to_string (nth_error (split dash (fst (key_val seg))) 1))
            = Throw URIError
            \/ decodeURIComponent (to_string (snd (key_val seg)))
               = Throw URIError).
Proof.
  unfold parseBaggageString.
  rewrite (reduce_throw_iff parse_step _ _ (fun a x => parse_step_throws a x)).
  split; intros (seg & Hin & Hfp & Hd); exists seg;
    (split; [assumption|]); (split; [|assumption]);
    now rewrite first_party_segment in *.
Qed.

(** X5: when the parser returns, the third-party part is the comma-join,
    in the order of the input, of the segments that do not begin with
    [sentry-], without the empty segments that come before the first
    non-empty one; so no segment of the third-party part begins with
    [sentry-]. *)
Theorem parse_third_party_part (h : jsstring) (parsed : Baggage) :
  parseBaggageString h = Ok parsed ->
  getThirdPartyBaggage parsed
  = join comma
      (drop_empty
         (filter (fun w => negb (SENTRY_BAGGAGE_KEY_PREFIX_REGEX w))
                 (split comma h)))
  /\ forall w, In w (split comma (getThirdPartyBaggage parsed)) ->
               SENTRY_BAGGAGE_KEY_PREFIX_REGEX w = false.
Proof.
  destruct parsed as [o r]. intros H. cbn [getThirdPartyBaggage snd]. split.
  - rewrite (parse_remainder h o r H). unfold third_party_segments.
    f_equal. f_equal. apply filter_ext. intros w.
    now rewrite first_party_segment.
  - intros w Hw. rewrite <- first_party_segment.
    destruct (parse_remainder_segments h o r w H Hw) as [->|[_ E]];
      [reflexivity | assumption].
Qed.

Lemma parse_third_party_part_witness :
  getThirdPartyBaggage ([(js "a", js "1")], js "x=1,,y")
  = join comma
      (drop_empty
         (filter (fun w => negb (SENTRY_BAGGAGE_KEY_PREFIX_REGEX w))
                 (split comma (js ",x=1,sentry-a=1,,y")))).
Proof.
  apply (parse_third_party_part (js ",x=1,sentry-a=1,,y")). reflexivity.
Defined.

Lemma parse_items_grow (segs : list jsstring) :
  forall o s o' s',
    reduce parse_step segs (o, s) = Ok (o', s') -> o <> [] -> o' <> [].
Proof.
  intros o s o' s' H Ho.
  apply (reduce_invariant parse_step (fun b => fst b <> []) segs)
    with (init := (o, s)) (r := (o', s')); [|assumption|assumption].
  intros [oa sa] seg [ob sb] _ Ha Hs. cbn [fst] in *.
  destruct (first_party seg) eqn:Hfp.
  - apply parse_step_first_party in Hs as (_ & k & v & _ & _ & ->);
      [|assumption]. apply obj_set_not_nil.
  - rewrite parse_step_third_party in Hs by assumption.
    now inversion Hs; subst.
Qed.

(** X6: the parser returns empty items exactly for the headers in which no
    segment begins with [sentry-]; on such a header it never throws. *)
Theorem parse_empty_items_iff (h : jsstring) :
  (forall seg, In seg (split comma h) ->
               SENTRY_BAGGAGE_KEY_PREFIX_REGEX seg = false)
  <-> exists third, parseBaggageString h = Ok ([], third).
Proof.
  split.
  - intros H. eexists. unfold parseBaggageString.
    apply parse_third_party_only. intros w Hw.
    rewrite first_party_segment. now apply H.
  - intros [third H] seg Hin.
    destruct (SENTRY_BAGGAGE_KEY_PREFIX_REGEX seg) eqn:E; [|reflexivity].
    exfalso. rewrite <- first_party_segment in E.
    apply in_split in Hin as (pre & post & Hsplit).
    unfold parseBaggageString in H. rewrite Hsplit, reduce_app in H.
    apply bind_Ok in H as ([o1 s1] & _ & H). cbn [reduce] in H.
    apply bind_Ok in H as ([o2 s2] & Hstep & H).
    apply parse_step_first_party in Hstep as (_ & k & v & _ & _ & ->);
      [|assumption].
    apply (parse_items_grow post _ _ _ _ H); [apply obj_set_not_nil|].
    reflexivity.
Qed.

(** *** What the serializer returns, and when it throws *)

Lemma baggage_entry_throws (b : Baggage) (key : jsstring) :
  baggage_entry b key = Throw URIError
  <-> encodeURIComponent key = Throw URIError
      \/ encodeURIComponent (to_string (obj_get (fst b) key))
         = Throw URIError.
Proof.
  unfold baggage_entry.
  destruct (encodeURIComponent key) as [ek|e]; cbn [bind].
  - destruct (encodeURIComponent (to_string (obj_get (fst b) key)))
      as [ev|e]; cbn [bind].
    + split; [discriminate | intros [H|H]; discriminate].
    + rewrite (error_unique e). split; auto.
  - rewrite (error_unique e). split; auto.
Qed.

Lemma serialize_step_throws (b : Baggage) (prev key : jsstring) :
  serialize_step b prev key = Throw URIError
  <-> baggage_entry b key = Throw URIError.
Proof.
  unfold serialize_step. destruct (baggage_entry b key) as [e|e]; cbn [bind].
  - destruct (_ <? _); split; discriminate.
  - tauto.
Qed.

(** The serializer throws exactly when [encodeURIComponent] throws on some
    key of the items or on the value at that key; the sizes play no part
    in it. *)
Lemma serialize_throws_iff (baggage : Baggage) :
  serializeBaggage baggage = Throw URIError
  <-> exists key,
        In key (keys (fst baggage))
        /\ (encodeURIComponent key = Throw URIError
            \/ encodeURIComponent (to_string (obj_get (fst baggage) key))
               = Throw URIError).
Proof.
  unfold serializeBaggage.
  rewrite (reduce_throw_iff (serialize_step baggage)
             (fun key => baggage_entry baggage key = Throw URIError)).
  - split; intros (key & Hin & H); exists key; (split; [assumption|]);
      now apply baggage_entry_throws.
  - intros prev key. apply serialize_step_throws.
Qed.

Lemma serialize_reduce_structure (b : Baggage) (l : list jsstring) :
  forall init s,
    reduce (serialize_step b) l init = Ok s ->
    exists ks es,
      subsequence ks l
      /\ Forall2 (fun k e => baggage_entry b k = Ok e) ks es
      /\ s = fold_left append_entry es init.
Proof.
  induction l as [|key l IH]; intros init s H; cbn [reduce] in H.
  - inversion H; subst. exists [], []. repeat split; constructor.
  - apply bind_Ok in H as (a & Hstep & H).
    destruct (IH a s H) as (ks & es & Hsub & Hall & ->).
    apply serialize_step_cases in Hstep as (e & He & [->|[-> _]]).
    + exists ks, es. repeat split; [now constructor | assumption].
    + exists (key :: ks), (e :: es).
      repeat split; [now constructor | now constructor].
Qed.

(** X8: when the serializer returns, the result is the third-party part
    followed by the entries of some of the keys, in the order of
    [Object.keys]: entries may be left out, never reordered, and nothing is
    put before the third-party part. *)
Theorem serialize_keeps_key_order (baggage : Baggage) (s : jsstring) :
  serializeBaggage baggage = Ok s ->
  exists kept entries,
    subsequence kept (keys (fst baggage))
    /\ Forall2 (fun k e => baggage_entry baggage k = Ok e) kept entries
    /\ s = fold_left append_entry entries (getThirdPartyBaggage baggage).
Proof. apply serialize_reduce_structure. Qed.

Lemma serialize_keeps_key_order_witness :
  exists kept entries,
    subsequence kept [js "a"; js "big"; js "c"]
    /\ Forall2 (fun k e =>
                  baggage_entry
                    ([(js "a", js "1"); (js "big", filler 8190);
                      (js "c", js "3")], js "x=y") k = Ok e) kept entries
    /\ js "x=y,sentry-a=1,sentry-c=3"
       = fold_left append_entry entries (js "x=y").
Proof.
  apply (serialize_keeps_key_order
           ([(js "a", js "1"); (js "big", filler 8190); (js "c", js "3")],
            js "x=y")).
  vm_compute. reflexivity.
Defined.

Lemma append_entry_length_mono (a a' e : jsstring) :
  str_length a <= str_length a' ->
  str_length (append_entry a e) <= str_length (append_entry a' e).
Proof.
  unfold append_entry. intros H.
  destruct a as [|c a]; destruct a' as [|c' a']; cbn [is_empty];
    rewrite ?str_length_app; unfold str_length in *; cbn [List.length] in *;
    lia.
Qed.

Lemma serialize_against_unbounded (b : Baggage) (l : list jsstring) :
  forall init init' s,
    reduce (serialize_step b) l init = Ok s ->
    str_length init <= str_length init' ->
    exists t, reduce (unbounded_step b) l init' = Ok t
              /\ str_length s <= str_length t.
Proof.
  induction l as [|key l IH]; intros init init' s H Hlen; cbn [reduce] in *.
  - inversion H; subst. now exists init'.
  - apply bind_Ok in H as (a & Hstep & H).
    apply serialize_step_cases in Hstep as (e & He & Ha).
    unfold unbounded_step at 1. rewrite He. cbn [bind].
    apply (IH a _ s H).
    destruct Ha as [->|[-> _]].
    + pose proof (append_entry_length init' e). lia.
    + now apply append_entry_length_mono.
Qed.

(** X9: the length check changes the result only when something does not
    fit.  When the serializer returns, the serialization without the check
    exists and is at least as long, and if that one is at most 8192
    characters long the serializer returns exactly it: no entry is left
    out. *)
Theorem serialize_complete_when_fits (baggage : Baggage) (s : jsstring) :
  serializeBaggage baggage = Ok s ->
  exists t,
    unbounded_serialization baggage = Ok t
    /\ str_length s <= str_length t
    /\ (str_length t <= MAX_BAGGAGE_STRING_LENGTH -> s = t).
Proof.
  intros H. unfold serializeBaggage in H.
  destruct (serialize_against_unbounded baggage _ _ (snd baggage) s H
              (N.le_refl _)) as (t & Ht & Hlen).
  exists t. repeat split; [assumption | assumption|].
  intros Hfit. pose proof (serialize_no_drop baggage _ _ t Ht Hfit) as E.
  congruence.
Qed.

Lemma serialize_complete_when_fits_witness :
  exists t,
    unbounded_serialization ([(js "a", js "1"); (js "b", js "2")], js "x=y")
    = Ok t
    /\ str_length (js "x=y,sentry-a=1,sentry-b=2") <= str_length t
    /\ (str_length t <= MAX_BAGGAGE_STRING_LENGTH ->
        js "x=y,sentry-a=1,sentry-b=2" = t).
Proof.
  apply (serialize_complete_when_fits
           ([(js "a", js "1"); (js "b", js "2")], js "x=y")).
  reflexivity.
Defined.

(** *** Parsing what the serializer wrote *)

Lemma drop_empty_head (l l' : list jsstring) (w : jsstring) :
  drop_empty l = w :: l' -> w <> [].
Proof.
  induction l as [|x l IH]; [discriminate|].
  destruct x as [|c x]; cbn [drop_empty]; [assumption|].
  intros E. inversion E. discriminate.
Qed.

Lemma join_drop_empty_start (l : list jsstring) :
  (forall w, In w l -> ~ In comma w) ->
  starts_with [comma] (join comma (drop_empty l)) = false.
Proof.
  intros H. destruct (drop_empty l) as [|w l'] eqn:E; [reflexivity|].
  pose proof (drop_empty_head l l' w E) as Hne.
  assert (Hw : ~ In comma w).
  { apply H. apply drop_empty_incl. rewrite E. now left. }
  rewrite join_cons. destruct w as [|c w]; [congruence|].
  cbn [app starts_with]. rewrite andb_true_r.
  apply N.eqb_neq. intros <-. apply Hw. now left.
Qed.

(** The third-party part that the parser returns does not begin with a
    comma. *)
Lemma parse_remainder_start (h : jsstring) (o : object) (r : jsstring) :
  parseBaggageString h = Ok (o, r) -> starts_with [comma] r = false.
Proof.
  intros H. rewrite (parse_remainder h o r H).
  apply join_drop_empty_start. intros w Hw.
  apply filter_In in Hw as [Hw _]. eapply split_pieces; eassumption.
Qed.

(** A string without first-party segments that does not begin with a comma
    parses to itself. *)
Lemma parse_clean_third_party (rem : jsstring) :
  (forall w, In w (split comma rem) -> first_party w = false) ->
  starts_with [comma] rem = false ->
  parseBaggageString rem = Ok ([], rem).
Proof.
  intros Hthird Hstart. unfold parseBaggageString.
  rewrite parse_third_party_only by assumption.
  now rewrite fold_append_empty, drop_empty_split.
Qed.

(** Parsing a third-party part followed by entries: the third-party part
    comes back as it is, and the items are those that the entries give. *)
Lemma parse_serialized (rem : jsstring) (es : list jsstring) (o' : object) :
  (forall w, In w (split comma rem) -> first_party w = false) ->
  starts_with [comma] rem = false ->
  (forall e, In e es -> ~ In comma e /\ e <> []) ->
  reduce parse_step es ([], rem) = Ok (o', rem) ->
  parseBaggageString (fold_left append_entry es rem) = Ok (o', rem).
Proof.
  intros Hthird Hstart Hes Hred.
  destruct es as [|e es].
  - cbn [fold_left reduce] in *. inversion Hred; subst.
    now apply parse_clean_third_party.
  - assert (Hsplit : split comma (join comma (e :: es)) = e :: es).
    { apply split_join; [discriminate|]. intros w Hw. now apply Hes. }
    destruct rem as [|c rem].
    + cbn [fold_left]. rewrite append_entry_empty.
      rewrite fold_append_nonempty by (apply Hes; now left).
      unfold parseBaggageString. now rewrite Hsplit.
    + rewrite fold_append_nonempty by discriminate.
      change (join comma ((c :: rem) :: e :: es))
        with ((c :: rem) ++ comma :: join comma (e :: es)).
      unfold parseBaggageString. rewrite split_app, Hsplit, reduce_app.
      pose proof (parse_clean_third_party (c :: rem) Hthird Hstart) as Hp.
      unfold parseBaggageString in Hp. rewrite Hp. exact Hred.
Qed.

(** X10: the third-party part that the parser returns is a fixed point: it
    parses to empty items and itself, so serializing the parsed third-party
    part gives it back unchanged. *)
Theorem third_party_part_fixed (h : jsstring) (parsed : Baggage) :
  parseBaggageString h = Ok parsed ->
  parseBaggageString (getThirdPartyBaggage parsed)
  = Ok ([], getThirdPartyBaggage parsed)
  /\ bind (parseBaggageString (getThirdPartyBaggage parsed)) serializeBaggage
     = Ok (getThirdPartyBaggage parsed).
Proof.
  destruct parsed as [o r]. intros H. cbn [getThirdPartyBaggage snd].
  assert (E : parseBaggageString r = Ok ([], r)).
  { apply parse_clean_third_party.
    - intros w Hw. eapply parse_remainder_third_party; eassumption.
    - eapply parse_remainder_start; eassumption. }
  split; [assumption|]. now rewrite E.
Qed.

Lemma third_party_part_fixed_witness :
  parseBaggageString (js "x=1,,y") = Ok ([], js "x=1,,y").
Proof.
  apply (third_party_part_fixed (js ",x=1,sentry-a=1,,y")
           ([(js "a", js "1")], js "x=1,,y")).
  reflexivity.
Defined.

(** *** Merging: what reaches the result *)

Lemma merge_unfold_any (incoming : option Baggage) (header : jsstring) :
  mergeAndSerializeBaggage incoming (Some header)
  = bind (parseBaggageString header) (fun headerBaggage =>
      serializeBaggage
        (createBaggage
           (match incoming with Some b => fst b | None => [] end)
           (Some (getThirdPartyBaggage headerBaggage)))).
Proof.
  destruct incoming as [b|]; [apply merge_unfold|].
  destruct header as [|c h]; [reflexivity|].
  unfold mergeAndSerializeBaggage. cbn [truthy is_empty negb to_string].
  destruct (parseBaggageString (c :: h)) as [[o third]|e]; [|reflexivity].
  cbn [fmap bind option_map getThirdPartyBaggage snd].
  now destruct third.
Qed.

Lemma separated_length (l : list jsstring) :
  forall w, List.length (join comma (w :: l))
            = (List.length w
               + List.length (List.concat (map (cons comma) l)))%nat.
Proof. intros w. now rewrite join_cons, length_app. Qed.

Lemma separated_length_filter (p : jsstring -> bool) (l : list jsstring) :
  (List.length (List.concat (map (cons comma) (filter p l)))
   <= List.length (List.concat (map (cons comma) l)))%nat.
Proof.
  induction l as [|w l IH]; [reflexivity|].
  cbn [filter map List.concat]. destruct (p w);
    cbn [map List.concat]; rewrite ?length_app; cbn [List.length]; lia.
Qed.

Lemma separated_length_drop_empty (l : list jsstring) :
  (List.length (List.concat (map (cons comma) (drop_empty l)))
   <= List.length (List.concat (map (cons comma) l)))%nat.
Proof.
  induction l as [|w l IH]; [reflexivity|].
  destruct w as [|c w]; cbn [drop_empty]; [|reflexivity].
  cbn [map List.concat app List.length]. lia.
Qed.

Lemma join_length_le (l m : list jsstring) :
  (List.length (List.concat (map (cons comma) m))
   <= List.length (List.concat (map (cons comma) l)))%nat ->
  (List.length (join comma m) <= List.length (join comma l))%nat.
Proof.
  intros H. destruct m as [|w m]; [cbn; lia|].
  destruct l as [|x l]; [cbn in H; rewrite length_app in H; cbn in H; lia|].
  rewrite !separated_length. cbn [map List.concat] in H.
  rewrite !length_app in H. cbn [List.length] in H. lia.
Qed.

(** The third-party part is never longer than the header it comes from. *)
Lemma parse_remainder_length (h : jsstring) (o : object) (r : jsstring) :
  parseBaggageString h = Ok (o, r) -> str_length r <= str_length h.
Proof.
  intros H. rewrite (parse_remainder h o r H).
  rewrite <- (join_split comma h) at 2. unfold str_length, third_party_segments.
  assert (Hle : (List.length
                   (join comma
                      (drop_empty
                         (filter (fun w => negb (first_party w))
                                 (split comma h))))
                 <= List.length (join comma (split comma h)))%nat).
  { apply join_length_le.
    etransitivity; [apply separated_length_drop_empty|].
    apply separated_length_filter. }
  lia.
Qed.

(** X12: when a merge with a header returns, every non-empty segment of
    the header that does not begin with [sentry-] is a segment of the
    result, and the result is at most 8192 characters long when the header
    is. *)
Theorem merge_keeps_third_party
  (incoming : option Baggage) (header r : jsstring) :
  mergeAndSerializeBaggage incoming (Some header) = Ok r ->
  (forall seg, In seg (split comma header) -> seg <> [] ->
               SENTRY_BAGGAGE_KEY_PREFIX_REGEX seg = false ->
               In seg (split comma r))
  /\ (str_length header <= MAX_BAGGAGE_STRING_LENGTH ->
      str_length r <= MAX_BAGGAGE_STRING_LENGTH).
Proof.
  rewrite merge_unfold_any. intros H.
  apply bind_Ok in H as ([o third] & Hparse & Hser).
  cbn [getThirdPartyBaggage snd] in Hser.
  unfold serializeBaggage, createBaggage in Hser. cbn [fst snd] in Hser.
  apply serialize_reduce_bound in Hser as [Hlen Hkeep].
  split.
  - intros seg Hin Hne Hre.
    assert (Hseg : In seg (split comma third)).
    { rewrite (parse_remainder header o third Hparse).
      assert (Hs : In seg (third_party_segments header)).
      { apply drop_empty_keeps; [|assumption]. apply filter_In.
        split; [assumption|]. now rewrite first_party_segment, Hre. }
      rewrite split_join; [assumption | |].
      - intros E. rewrite E in Hs. contradiction.
      - intros y Hy. apply third_party_segments_spec in Hy. tauto. }
    apply (keeps_third_party_segments third r seg Hkeep); [|assumption].
    intros ->. destruct Hseg as [<-|[]]. congruence.
  - intros Hh. apply Hlen.
    pose proof (parse_remainder_length header o third Hparse). lia.
Qed.

Lemma merge_keeps_third_party_witness :
  In (js "other=1") (split comma (js "other=1,sentry-a=1")).
Proof.
  apply (merge_keeps_third_party
           (Some ([(js "a", js "1")], js ""))
           (js "sentry-a=evil,other=1") (js "other=1,sentry-a=1")).
  - reflexivity.
  - right; left; reflexivity.
  - discriminate.
  - reflexivity.
Defined.

(** *** Percent-encoding of Unicode text *)

Lemma split_prefix (sep : code_unit) (p s : jsstring) :
  ~ In sep p ->
  exists w ws, split sep s = w :: ws /\ split sep (p ++ s) = (p ++ w) :: ws.
Proof.
  induction p as [|c p IH]; intros Hp.
  - destruct (split sep s) as [|w ws] eqn:E; [now apply split_not_nil in E|].
    now exists w, ws.
  - destruct IH as (w & ws & E & E'); [intros H; apply Hp; now right|].
    exists w, ws. split; [assumption|].
    destruct (split_cons_other sep c (p ++ s)) as (w' & ws' & E1 & E2);
      [intros ->; apply Hp; now left|].
    cbn [app]. rewrite E2. rewrite E' in E1. now inversion E1.
Qed.

Lemma below_cases (n : nat) (P : N -> bool) :
  forallb P (map N.of_nat (seq 0 n)) = true ->
  forall c, c < N.of_nat n -> P c = true.
Proof.
  intros H c Hc. rewrite forallb_forall in H. apply H.
  rewrite <- (N2Nat.id c). apply in_map. apply in_seq. lia.
Qed.

Lemma octet_escape (b : N) :
  b < 256 ->
  escaped_octet percent (hex_digit (N.shiftr b 4)) (hex_digit (N.land b 0xF))
  = Some b.
Proof.
  intros Hb.
  pose proof (below_cases 256
    (fun b => match escaped_octet percent (hex_digit (N.shiftr b 4))
                                 (hex_digit (N.land b 0xF)) with
              | Some b' => b' =? b
              | None => false
              end) eq_refl b Hb) as H.
  cbv beta in H. destruct (escaped_octet _ _ _) as [b'|]; [|discriminate].
  apply N.eqb_eq in H. now subst.
Qed.

Lemma octet_escape_chars (b x : N) :
  b < 256 -> In x (percent_octet b) -> x <> comma /\ x <> equals /\ x <> dash.
Proof.
  intros Hb Hx.
  pose proof (below_cases 256
    (fun c => forallb (fun x => negb (x =? comma) && negb (x =? equals)
                                && negb (x =? dash)) (percent_octet c))
    eq_refl b Hb) as H.
  cbv beta in H. rewrite forallb_forall in H. specialize (H x Hx).
  apply andb_true_iff in H as [H H3]. apply andb_true_iff in H as [H1 H2].
  apply negb_true_iff in H1, H2, H3.
  apply N.eqb_neq in H1, H2, H3. auto.
Qed.

Lemma continuation_octet (x : N) :
  x < 64 -> N.lor 0x80 x = 0x80 + x
            /\ is_continuation (0x80 + x) = true /\ payload (0x80 + x) = x.
Proof.
  intros Hx.
  pose proof (below_cases 64
    (fun x => (N.lor 0x80 x =? 0x80 + x) && is_continuation (0x80 + x)
              && (payload (0x80 + x) =? x)) eq_refl x Hx) as H.
  cbv beta in H. apply andb_true_iff in H as [H H3].
  apply andb_true_iff in H as [H1 H2].
  apply N.eqb_eq in H1, H3. auto.
Qed.

Lemma lead_octet_2 (x : N) :
  x < 32 -> N.lor 0xC0 x = 0xC0 + x /\ N.land (0xC0 + x) 0x1F = x.
Proof.
  intros Hx.
  pose proof (below_cases 32
    (fun x => (N.lor 0xC0 x =? 0xC0 + x) && (N.land (0xC0 + x) 0x1F =? x))
    eq_refl x Hx) as H.
  cbv beta in H. apply andb_true_iff in H as [H1 H2].
  apply N.eqb_eq in H1, H2. auto.
Qed.

Lemma lead_octet_3 (x : N) :
  x < 16 -> N.lor 0xE0 x = 0xE0 + x /\ N.land (0xE0 + x) 0xF = x.
Proof.
  intros Hx.
  pose proof (below_cases 16
    (fun x => (N.lor 0xE0 x =? 0xE0 + x) && (N.land (0xE0 + x) 0xF =? x))
    eq_refl x Hx) as H.
  cbv beta in H. apply andb_true_iff in H as [H1 H2].
  apply N.eqb_eq in H1, H2. auto.
Qed.

Lemma lead_octet_4 (x : N) :
  x < 8 -> N.lor 0xF0 x = 0xF0 + x /\ N.land (0xF0 + x) 0x7 = x.
Proof.
  intros Hx.
  pose proof (below_cases 8
    (fun x => (N.lor 0xF0 x =? 0xF0 + x) && (N.land (0xF0 + x) 0x7 =? x))
    eq_refl x Hx) as H.
  cbv beta in H. apply andb_true_iff in H as [H1 H2].
  apply N.eqb_eq in H1, H2. auto.
Qed.

Lemma shiftr_unique (v n q r : N) :
  v = 2 ^ n * q + r -> r < 2 ^ n -> N.shiftr v n = q.
Proof.
  intros E Hr. rewrite N.shiftr_div_pow2. symmetry.
  now apply (N.div_unique v (2 ^ n) q r).
Qed.

Lemma land_unique (v n q r : N) :
  v = 2 ^ n * q + r -> r < 2 ^ n -> N.land v (N.ones n) = r.
Proof.
  intros E Hr. rewrite N.land_ones. symmetry.
  now apply (N.mod_unique v (2 ^ n) q r).
Qed.

Lemma shiftr_6 (v q r : N) : v = 64 * q + r -> r < 64 -> N.shiftr v 6 = q.
Proof. apply (shiftr_unique v 6 q r). Qed.

Lemma shiftr_10 (v q r : N) :
  v = 1024 * q + r -> r < 1024 -> N.shiftr v 10 = q.
Proof. apply (shiftr_unique v 10 q r). Qed.

Lemma shiftr_12 (v q r : N) :
  v = 4096 * q + r -> r < 4096 -> N.shiftr v 12 = q.
Proof. apply (shiftr_unique v 12 q r). Qed.

Lemma shiftr_18 (v q r : N) :
  v = 262144 * q + r -> r < 262144 -> N.shiftr v 18 = q.
Proof. apply (shiftr_unique v 18 q r). Qed.

Lemma low_digit (v q r : N) :
  v = 64 * q + r -> r < 64 -> N.land v 0x3F = r.
Proof. apply (land_unique v 6 q r). Qed.

Lemma low_digits_10 (v q r : N) :
  v = 1024 * q + r -> r < 1024 -> N.land v 0x3FF = r.
Proof. apply (land_unique v 10 q r). Qed.

Lemma shiftl_mul (v n : N) : N.shiftl v n = 2 ^ n * v.
Proof. rewrite N.shiftl_mul_pow2. apply N.mul_comm. Qed.

Lemma digits64 (v : N) : exists q r, v = 64 * q + r /\ r < 64.
Proof.
  exists (v / 64), (v mod 64). split.
  - apply N.div_mod. discriminate.
  - apply N.mod_lt. discriminate.
Qed.

Lemma utf8_two (q r : N) :
  q < 32 -> r < 64 -> 0x80 <= 64 * q + r ->
  utf8_encode (64 * q + r) = [0xC0 + q; 0x80 + r]
  /\ utf8_decode (0xC0 + q) [0x80 + r] = Some (64 * q + r).
Proof.
  intros Hq Hr Hv.
  destruct (lead_octet_2 _ Hq) as [L1 L2].
  destruct (continuation_octet _ Hr) as (C1 & C2 & C3).
  split.
  - unfold utf8_encode.
    destruct (N.ltb_spec (64 * q + r) 0x80); [lia|].
    destruct (N.ltb_spec (64 * q + r) 0x800); [|lia].
    rewrite (shiftr_6 _ q r), (low_digit _ q r)
      by lia.
    now rewrite L1, C1.
  - unfold utf8_decode. cbn [forallb]. rewrite C2. cbn [andb].
    rewrite L2, C3, shiftl_mul. change (2 ^ 6) with 64.
    destruct (N.leb_spec 0x80 (64 * q + r)); [reflexivity | lia].
Qed.

Lemma utf8_three (a b c : N) :
  a < 16 -> b < 64 -> c < 64 ->
  0x800 <= 4096 * a + 64 * b + c ->
  in_range 0xD800 0xDFFF (4096 * a + 64 * b + c) = false ->
  utf8_encode (4096 * a + 64 * b + c) = [0xE0 + a; 0x80 + b; 0x80 + c]
  /\ utf8_decode (0xE0 + a) [0x80 + b; 0x80 + c]
     = Some (4096 * a + 64 * b + c).
Proof.
  intros Ha Hb Hc Hv Hs. set (v := 4096 * a + 64 * b + c) in *.
  destruct (lead_octet_3 _ Ha) as [L1 L2].
  destruct (continuation_octet _ Hb) as (C1 & C2 & C3).
  destruct (continuation_octet _ Hc) as (C1' & C2' & C3').
  split.
  - unfold utf8_encode.
    destruct (N.ltb_spec v 0x80); [lia|]. destruct (N.ltb_spec v 0x800); [lia|].
    destruct (N.ltb_spec v 0x10000); [|subst v; lia].
    rewrite (shiftr_12 v a (64 * b + c)),
            (shiftr_6 v (64 * a + b) c),
            (low_digit v (64 * a + b) c),
            (low_digit (64 * a + b) a b)
      by (subst v; lia).
    now rewrite L1, C1, C1'.
  - unfold utf8_decode. cbn [forallb]. rewrite C2, C2'. cbn [andb].
    rewrite L2, C3, C3', !shiftl_mul.
    change (2 ^ 12 * a + 2 ^ 6 * b + c) with v.
    rewrite Hs. destruct (N.leb_spec 0x800 v); [reflexivity | lia].
Qed.

Lemma utf8_four (a b c d : N) :
  a < 8 -> b < 64 -> c < 64 -> d < 64 ->
  0x10000 <= 262144 * a + 4096 * b + 64 * c + d <= 0x10FFFF ->
  utf8_encode (262144 * a + 4096 * b + 64 * c + d)
  = [0xF0 + a; 0x80 + b; 0x80 + c; 0x80 + d]
  /\ utf8_decode (0xF0 + a) [0x80 + b; 0x80 + c; 0x80 + d]
     = Some (262144 * a + 4096 * b + 64 * c + d).
Proof.
  intros Ha Hb Hc Hd Hv. set (v := 262144 * a + 4096 * b + 64 * c + d) in *.
  destruct (lead_octet_4 _ Ha) as [L1 L2].
  destruct (continuation_octet _ Hb) as (C1 & C2 & C3).
  destruct (continuation_octet _ Hc) as (C1' & C2' & C3').
  destruct (continuation_octet _ Hd) as (C1'' & C2'' & C3'').
  split.
  - unfold utf8_encode.
    destruct (N.ltb_spec v 0x80); [lia|]. destruct (N.ltb_spec v 0x800); [lia|].
    destruct (N.ltb_spec v 0x10000); [lia|].
    rewrite (shiftr_18 v a (4096 * b + 64 * c + d)),
            (shiftr_12 v (64 * a + b) (64 * c + d)),
            (shiftr_6 v (4096 * a + 64 * b + c) d),
            (low_digit v (4096 * a + 64 * b + c) d),
            (low_digit (4096 * a + 64 * b + c) (64 * a + b) c),
            (low_digit (64 * a + b) a b)
      by (subst v; lia).
    now rewrite L1, C1, C1', C1''.
  - unfold utf8_decode. cbn [forallb]. rewrite C2, C2', C2''. cbn [andb].
    rewrite L2, C3, C3', C3'', !shiftl_mul.
    change (2 ^ 18 * a + 2 ^ 12 * b + 2 ^ 6 * c + d) with v.
    unfold in_range.
    destruct (N.leb_spec 0x10000 v); [|lia].
    destruct (N.leb_spec v 0x10FFFF); [reflexivity | lia].
Qed.

Lemma surrogate_pair (c d : N) :
  is_lead_surrogate c = true -> is_trail_surrogate d = true ->
  0x10000 <= surrogate_pair_to_code_point c d <= 0x10FFFF
  /\ utf16_encode (surrogate_pair_to_code_point c d) = [c; d].
Proof.
  unfold is_lead_surrogate, is_trail_surrogate, in_range.
  intros Hc Hd. apply andb_true_iff in Hc as [Hc1 Hc2].
  apply andb_true_iff in Hd as [Hd1 Hd2].
  apply N.leb_le in Hc1, Hc2, Hd1, Hd2.
  unfold surrogate_pair_to_code_point, utf16_encode.
  rewrite shiftl_mul. change (2 ^ 10) with 1024.
  set (h := c - 0xD800). set (l := d - 0xDC00).
  assert (Hh : h < 1024) by (subst h; lia).
  assert (Hl : l < 1024) by (subst l; lia).
  split; [lia|].
  destruct (N.ltb_spec (1024 * h + l + 0x10000) 0x10000); [lia|].
  replace (1024 * h + l + 0x10000 - 0x10000) with (1024 * h + l) by lia.
  rewrite (shiftr_10 _ h l),
          (low_digits_10 _ h l)
    by lia.
  f_equal; [subst h; lia | f_equal; subst l; lia].
Qed.

Lemma decode_two (b0 b1 : N) (rest : jsstring) :
  b0 < 256 -> b1 < 256 -> in_range 0xC0 0xDF b0 = true ->
  decodeURIComponent (percent_octet b0 ++ percent_octet b1 ++ rest)
  = decoded (utf8_decode b0 [b1]) (decodeURIComponent rest).
Proof.
  intros H0 H1 Hr. unfold percent_octet. cbn [app decodeURIComponent].
  rewrite N.eqb_refl, !octet_escape by assumption.
  unfold in_range in Hr. apply andb_true_iff in Hr as [Hr1 Hr2].
  apply N.leb_le in Hr1, Hr2.
  destruct (N.ltb_spec b0 0x80); [lia|].
  unfold in_range. destruct (N.leb_spec 0xC0 b0); [|lia].
  destruct (N.leb_spec b0 0xDF); [|lia]. reflexivity.
Qed.

Lemma decode_three (b0 b1 b2 : N) (rest : jsstring) :
  b0 < 256 -> b1 < 256 -> b2 < 256 -> in_range 0xE0 0xEF b0 = true ->
  decodeURIComponent
    (percent_octet b0 ++ percent_octet b1 ++ percent_octet b2 ++ rest)
  = decoded (utf8_decode b0 [b1; b2]) (decodeURIComponent rest).
Proof.
  intros H0 H1 H2 Hr. unfold percent_octet. cbn [app decodeURIComponent].
  rewrite N.eqb_refl, !octet_escape by assumption.
  unfold in_range in Hr. apply andb_true_iff in Hr as [Hr1 Hr2].
  apply N.leb_le in Hr1, Hr2.
  destruct (N.ltb_spec b0 0x80); [lia|].
  unfold in_range. destruct (N.leb_spec 0xC0 b0); [|lia].
  destruct (N.leb_spec b0 0xDF); [lia|]. cbn [andb].
  destruct (N.leb_spec 0xE0 b0); [|lia].
  destruct (N.leb_spec b0 0xEF); [|lia]. reflexivity.
Qed.

Lemma decode_four (b0 b1 b2 b3 : N) (rest : jsstring) :
  b0 < 256 -> b1 < 256 -> b2 < 256 -> b3 < 256 ->
  in_range 0xF0 0xF7 b0 = true ->
  decodeURIComponent
    (percent_octet b0 ++ percent_octet b1 ++ percent_octet b2
     ++ percent_octet b3 ++ rest)
  = decoded (utf8_decode b0 [b1; b2; b3]) (decodeURIComponent rest).
Proof.
  intros H0 H1 H2 H3 Hr. unfold percent_octet. cbn [app decodeURIComponent].
  rewrite N.eqb_refl, !octet_escape by assumption.
  unfold in_range in Hr. apply andb_true_iff in Hr as [Hr1 Hr2].
  apply N.leb_le in Hr1, Hr2.
  destruct (N.ltb_spec b0 0x80); [lia|].
  unfold in_range. destruct (N.leb_spec 0xC0 b0); [|lia].
  destruct (N.leb_spec b0 0xDF); [lia|]. cbn [andb].
  destruct (N.leb_spec 0xE0 b0); [|lia].
  destruct (N.leb_spec b0 0xEF); [lia|]. cbn [andb].
  destruct (N.leb_spec 0xF0 b0); [|lia].
  destruct (N.leb_spec b0 0xF7); [|lia]. reflexivity.
Qed.

Lemma in_range_true (lo hi c : N) : lo <= c <= hi -> in_range lo hi c = true.
Proof.
  intros [H1 H2]. unfold in_range. apply andb_true_iff.
  split; now apply N.leb_le.
Qed.

(** Decoding the escapes of a code point gives back its UTF-16 form. *)
Lemma decode_code_point (v : N) (rest : jsstring) :
  scalar v ->
  Forall (fun b => b < 256) (utf8_encode v)
  /\ decodeURIComponent (percent_octets (utf8_encode v) ++ rest)
     = fmap (app (utf16_encode v)) (decodeURIComponent rest).
Proof.
  intros [Hmax Hsur].
  destruct (digits64 v) as (q1 & r1 & E1 & Hr1).
  destruct (digits64 q1) as (q2 & r2 & E2 & Hr2).
  destruct (digits64 q2) as (q3 & r3 & E3 & Hr3).
  destruct (N.lt_ge_cases v 0x80) as [Hv|Hv].
  { rewrite (ascii_utf8 v Hv). split; [repeat constructor; lia|].
    unfold percent_octets. cbn [flat_map app]. unfold percent_octet.
    cbn [app].
    rewrite (decode_escape _ _ v) by (try apply octet_escape; lia).
    unfold utf16_encode. destruct (N.ltb_spec v 0x10000); [reflexivity|lia]. }
  destruct (N.lt_ge_cases v 0x800) as [Hv2|Hv2].
  { assert (Hq : q1 < 32) by lia.
    assert (Hv' : 0x80 <= 64 * q1 + r1) by lia.
    destruct (utf8_two q1 r1 Hq Hr1 Hv') as [Eenc Edec].
    rewrite E1, Eenc. split; [repeat constructor; lia|].
    unfold percent_octets. cbn [flat_map]. rewrite <- !app_assoc. cbn [app].
    rewrite decode_two by (try apply in_range_true; lia).
    rewrite Edec. unfold decoded, utf16_encode.
    destruct (N.ltb_spec (64 * q1 + r1) 0x10000); [reflexivity|lia]. }
  destruct (N.lt_ge_cases v 0x10000) as [Hv3|Hv3].
  { assert (Ev : v = 4096 * q2 + 64 * r2 + r1) by lia.
    assert (Hq : q2 < 16) by lia.
    rewrite Ev in Hsur, Hv2.
    destruct (utf8_three q2 r2 r1 Hq Hr2 Hr1 Hv2 Hsur) as [Eenc Edec].
    rewrite Ev, Eenc. split; [repeat constructor; lia|].
    unfold percent_octets. cbn [flat_map]. rewrite <- !app_assoc. cbn [app].
    rewrite decode_three by (try apply in_range_true; lia).
    rewrite Edec. unfold decoded, utf16_encode.
    destruct (N.ltb_spec (4096 * q2 + 64 * r2 + r1) 0x10000);
      [reflexivity|lia]. }
  assert (Ev : v = 262144 * q3 + 4096 * r3 + 64 * r2 + r1) by lia.
  assert (Hq : q3 < 8) by lia.
  assert (Hv' : 0x10000 <= 262144 * q3 + 4096 * r3 + 64 * r2 + r1
                <= 0x10FFFF) by lia.
  destruct (utf8_four q3 r3 r2 r1 Hq Hr3 Hr2 Hr1 Hv') as [Eenc Edec].
  rewrite Ev, Eenc. split; [repeat constructor; lia|].
  unfold percent_octets. cbn [flat_map]. rewrite <- !app_assoc. cbn [app].
  rewrite decode_four by (try apply in_range_true; lia).
  now rewrite Edec.
Qed.

Lemma unescaped_below_128 (c : N) : uri_unescaped c = true -> c < 128.
Proof.
  intros H. destruct (N.lt_ge_cases c 128) as [|Hc]; [assumption|].
  exfalso. unfold uri_unescaped, in_range in H.
  cbn [js list_ascii_of_string map existsb] in H.
  repeat (apply orb_true_iff in H as [H|H]);
    try (apply andb_true_iff in H as [_ H]; apply N.leb_le in H; lia);
    try (apply N.eqb_eq in H; cbn in H; lia); try discriminate.
Qed.

Lemma percent_octets_chars (bs : list N) (x : N) :
  Forall (fun b => b < 256) bs -> In x (percent_octets bs) ->
  x <> comma /\ x <> equals /\ x <> dash.
Proof.
  induction 1 as [|b bs Hb _ IH]; [intros []|].
  unfold percent_octets. cbn [flat_map]. intros H.
  apply in_app_or in H as [H|H]; [now apply (octet_escape_chars b)|auto].
Qed.

Lemma unescaped_chars (c : N) :
  uri_unescaped c = true -> c <> comma /\ c <> equals /\ c <> percent.
Proof. intros H. repeat split; intros ->; discriminate H. Qed.

Lemma surrogates_range (c : N) :
  is_lead_surrogate c = false -> is_trail_surrogate c = false ->
  in_range 0xD800 0xDFFF c = false.
Proof.
  unfold is_lead_surrogate, is_trail_surrogate, in_range. intros H1 H2.
  destruct (N.leb_spec 0xD800 c), (N.leb_spec c 0xDFFF); try reflexivity.
  destruct (N.leb_spec c 0xDBFF), (N.leb_spec 0xDC00 c);
    cbn in *; try discriminate; lia.
Qed.

Lemma encode_decode_well_formed (s : jsstring) :
  well_formed s = true ->
  exists t, encodeURIComponent s = Ok t
            /\ decodeURIComponent t = Ok s
            /\ forall x, In x t ->
                 x <> comma /\ x <> equals /\ (x = dash -> In dash s).
Proof.
  assert (H : forall n s, (List.length s <= n)%nat -> well_formed s = true ->
    exists t, encodeURIComponent s = Ok t
              /\ decodeURIComponent t = Ok s
              /\ forall x, In x t ->
                   x <> comma /\ x <> equals /\ (x = dash -> In dash s)).
  { clear s. induction n as [|n IH]; intros s Hlen Hwf.
    { destruct s; [|cbn in Hlen; lia]. exists []. repeat split; destruct H. }
    destruct s as [|c r]; [exists []; repeat split; destruct H|].
    cbn [List.length] in Hlen. cbn [well_formed encodeURIComponent] in *.
    destruct (uri_unescaped c) eqn:Hu.
    - pose proof (unescaped_below_128 c Hu) as Hc.
      destruct (ascii_not_surrogate c Hc) as [Ht Hl]. rewrite Hl, Ht in Hwf.
      apply andb_true_iff in Hwf as [_ Hwf].
      destruct (IH r ltac:(lia) Hwf) as (t & Ee & Ed & Hch).
      exists (c :: t). rewrite Ee. split; [reflexivity|].
      destruct (unescaped_chars c Hu) as (Hc1 & Hc2 & Hc3).
      rewrite (decode_plain c t Hc3), Ed. split; [reflexivity|].
      intros x [<-|Hx].
      + repeat split; auto. intros ->. now left.
      + destruct (Hch x Hx) as (H1 & H2 & H3). repeat split; auto.
        intros E. right. auto.
    - destruct (is_lead_surrogate c) eqn:Hl.
      + destruct r as [|d r']; [discriminate|].
        apply andb_true_iff in Hwf as [Hd Hwf].
        assert (Ht : is_trail_surrogate c = false).
        { unfold is_lead_surrogate, is_trail_surrogate, in_range in *.
          apply andb_true_iff in Hl as [_ Hl]. apply N.leb_le in Hl.
          destruct (N.leb_spec 0xDC00 c); [lia | reflexivity]. }
        rewrite Ht, Hd. cbn [List.length] in Hlen.
        destruct (IH r' ltac:(lia) Hwf) as (t & Ee & Ed & Hch).
        destruct (surrogate_pair c d Hl Hd) as [Hv E16].
        set (v := surrogate_pair_to_code_point c d) in *.
        assert (Hs : scalar v).
        { split; [lia|]. unfold in_range.
          destruct (N.leb_spec v 0xDFFF); [lia|]. apply andb_false_r. }
        destruct (decode_code_point v t Hs) as [Hb Hdec].
        exists (percent_octets (utf8_encode v) ++ t).
        rewrite Ee. split; [reflexivity|].
        rewrite Hdec, Ed, E16. split; [reflexivity|].
        intros x Hx. apply in_app_or in Hx as [Hx|Hx].
        * destruct (percent_octets_chars _ x Hb Hx) as (H1 & H2 & H3).
          repeat split; auto. intros; contradiction.
        * destruct (Hch x Hx) as (H1 & H2 & H3). repeat split; auto.
          intros E. right; right. auto.
      + apply andb_true_iff in Hwf as [Hwf Hr].
        apply andb_true_iff in Hwf as [Ht Hc].
        apply negb_true_iff in Ht. apply N.ltb_lt in Hc. rewrite Ht.
        destruct (IH r ltac:(lia) Hr) as (t & Ee & Ed & Hch).
        assert (Hs : scalar c).
        { split; [lia | now apply surrogates_range]. }
        destruct (decode_code_point c t Hs) as [Hb Hdec].
        exists (percent_octets (utf8_encode c) ++ t).
        rewrite Ee. split; [reflexivity|].
        rewrite Hdec, Ed. unfold utf16_encode.
        apply N.ltb_lt in Hc. rewrite Hc. split; [reflexivity|].
        intros x Hx. apply in_app_or in Hx as [Hx|Hx].
        * destruct (percent_octets_chars _ x Hb Hx) as (H1 & H2 & H3).
          repeat split; auto. intros; contradiction.
        * destruct (Hch x Hx) as (H1 & H2 & H3). repeat split; auto.
          intros E. right. auto. }
  apply (H (List.length s)). lia.
Qed.

Lemma encode_well_formed (s : jsstring) :
  code_units s -> forall t, encodeURIComponent s = Ok t -> well_formed s = true.
Proof.
  assert (H : forall n s, (List.length s <= n)%nat -> code_units s ->
                forall t, encodeURIComponent s = Ok t -> well_formed s = true).
  { clear s. induction n as [|n IH]; intros s Hlen Hs t E.
    { destruct s; [reflexivity | cbn in Hlen; lia]. }
    destruct s as [|c r]; [reflexivity|].
    cbn [List.length] in Hlen. inversion Hs as [|? ? Hc Hr]; subst.
    cbn [well_formed encodeURIComponent] in *.
    destruct (uri_unescaped c) eqn:Hu.
    - pose proof (unescaped_below_128 c Hu) as Hc'.
      destruct (ascii_not_surrogate c Hc') as [-> ->].
      apply fmap_Ok in E as (t' & E & _).
      apply N.ltb_lt in Hc. rewrite Hc. cbn [negb andb].
      apply (IH r ltac:(lia) Hr t' E).
    - destruct (is_trail_surrogate c) eqn:Ht; [discriminate|].
      destruct (is_lead_surrogate c).
      + destruct r as [|d r']; [discriminate|].
        destruct (is_trail_surrogate d); [|discriminate].
        apply fmap_Ok in E as (t' & E & _). cbn [andb].
        inversion Hr; subst. cbn [List.length] in Hlen.
        apply (IH r' ltac:(lia) ltac:(assumption) t' E).
      + apply fmap_Ok in E as (t' & E & _).
        apply N.ltb_lt in Hc. rewrite Hc. cbn [negb andb].
        apply (IH r ltac:(lia) Hr t' E). }
  intros Hs. apply (H (List.length s)); [lia | assumption].
Qed.

Lemma encode_throws_iff (s : jsstring) :
  code_units s ->
  (encodeURIComponent s = Throw URIError <-> well_formed s = false).
Proof.
  intros Hs. split.
  - intros E. destruct (well_formed s) eqn:Hwf; [|reflexivity].
    destruct (encode_decode_well_formed s Hwf) as (t & Et & _). congruence.
  - intros Hwf. destruct (encodeURIComponent s) as [t|e] eqn:E.
    + rewrite (encode_well_formed s Hs t E) in Hwf. discriminate.
    + now destruct e.
Qed.

Lemma escapes_no_dash (v : N) :
  scalar v -> ~ In dash (percent_octets (utf8_encode v)).
Proof.
  intros Hs Hin. destruct (decode_code_point v [] Hs) as [Hb _].
  now apply (percent_octets_chars _ dash Hb) in Hin.
Qed.

(** The first of the pieces between the dashes of an encoded text is the
    encoding of the first piece of the text. *)
Lemma split_encode (s : jsstring) :
  well_formed s = true ->
  forall t, encodeURIComponent s = Ok t ->
  exists w ws tw tws,
    split dash s = w :: ws /\ split dash t = tw :: tws
    /\ well_formed w = true /\ encodeURIComponent w = Ok tw.
Proof.
  assert (H : forall n s, (List.length s <= n)%nat -> well_formed s = true ->
    forall t, encodeURIComponent s = Ok t ->
    exists w ws tw tws,
      split dash s = w :: ws /\ split dash t = tw :: tws
      /\ well_formed w = true /\ encodeURIComponent w = Ok tw).
  { clear s. induction n as [|n IH]; intros s Hlen Hwf t E.
    { destruct s; [|cbn in Hlen; lia]. inversion E.
      exists [], [], [], []. repeat split. }
    destruct s as [|c r].
    { inversion E. exists [], [], [], []. repeat split. }
    cbn [List.length] in Hlen. cbn [well_formed encodeURIComponent] in *.
    destruct (uri_unescaped c) eqn:Hu.
    - pose proof (unescaped_below_128 c Hu) as Hc.
      destruct (ascii_not_surrogate c Hc) as [Ht Hl]. rewrite Hl, Ht in Hwf.
      apply andb_true_iff in Hwf as [Hc16 Hwf].
      apply fmap_Ok in E as (t' & E & ->).
      destruct (IH r ltac:(lia) Hwf t' E)
        as (w & ws & tw & tws & Es & Et & Hw & Ew).
      cbn [split]. destruct (c =? dash).
      + exists [], (split dash r), [], (split dash t'). repeat split.
      + rewrite Es, Et. exists (c :: w), ws, (c :: tw), tws.
        repeat split.
        * cbn [well_formed]. now rewrite Hl, Ht, Hc16, Hw.
        * cbn [encodeURIComponent]. now rewrite Hu, Ew.
    - assert (Hd : (c =? dash) = false).
      { apply N.eqb_neq. intros ->. discriminate Hu. }
      destruct (is_lead_surrogate c) eqn:Hl.
      + destruct r as [|d r']; [discriminate|].
        apply andb_true_iff in Hwf as [Hdt Hwf].
        assert (Ht : is_trail_surrogate c = false).
        { unfold is_lead_surrogate, is_trail_surrogate, in_range in *.
          apply andb_true_iff in Hl as [_ Hl']. apply N.leb_le in Hl'.
          destruct (N.leb_spec 0xDC00 c); [lia | reflexivity]. }
        rewrite Ht, Hdt in E. apply fmap_Ok in E as (t' & E & ->).
        cbn [List.length] in Hlen.
        destruct (IH r' ltac:(lia) Hwf t' E)
          as (w & ws & tw & tws & Es & Et & Hw & Ew).
        destruct (surrogate_pair c d Hl Hdt) as [Hv _].
        set (v := surrogate_pair_to_code_point c d) in *.
        assert (Hs : scalar v).
        { split; [lia|]. unfold in_range.
          destruct (N.leb_spec v 0xDFFF); [lia|]. apply andb_false_r. }
        destruct (split_prefix dash (percent_octets (utf8_encode v)) t'
                    (escapes_no_dash v Hs)) as (tw' & tws' & Et1 & Et2).
        rewrite Et in Et1. inversion Et1; subst tw' tws'.
        assert (Hdd : (d =? dash) = false).
        { apply N.eqb_neq. intros ->. discriminate Hdt. }
        exists (c :: d :: w), ws, (percent_octets (utf8_encode v) ++ tw), tws.
        repeat split.
        * cbn [split]. now rewrite Hd, Hdd, Es.
        * assumption.
        * cbn [well_formed]. now rewrite Hl, Hdt, Hw.
        * cbn [encodeURIComponent]. now rewrite Hu, Ht, Hl, Hdt, Ew.
      + apply andb_true_iff in Hwf as [Hwf Hr].
        apply andb_true_iff in Hwf as [Ht Hc].
        apply negb_true_iff in Ht. rewrite Ht in E.
        apply fmap_Ok in E as (t' & E & ->).
        destruct (IH r ltac:(lia) Hr t' E)
          as (w & ws & tw & tws & Es & Et & Hw & Ew).
        assert (Hs : scalar c).
        { apply N.ltb_lt in Hc. split; [lia | now apply surrogates_range]. }
        destruct (split_prefix dash (percent_octets (utf8_encode c)) t'
                    (escapes_no_dash c Hs)) as (tw' & tws' & Et1 & Et2).
        rewrite Et in Et1. inversion Et1; subst tw' tws'.
        exists (c :: w), ws, (percent_octets (utf8_encode c) ++ tw), tws.
        repeat split.
        * cbn [split]. now rewrite Hd, Es.
        * assumption.
        * cbn [well_formed]. now rewrite Hl, Ht, Hc, Hw.
        * cbn [encodeURIComponent]. now rewrite Hu, Ht, Hl, Ew. }
  intros Hwf. apply (H (List.length s)); [lia | assumption].
Qed.

Lemma subsequence_In {A : Type} (l l' : list A) (x : A) :
  subsequence l l' -> In x l -> In x l'.
Proof.
  induction 1 as [|y l l' _ IH|y l l' _ IH]; [intros []| |].
  - intros H. right. auto.
  - intros [->|H]; [now left | right; auto].
Qed.

Lemma parse_entries_return (es : list jsstring) :
  (forall e, In e es ->
     forall o s, exists o', parse_step (o, s) e = Ok (o', s)) ->
  forall o s, exists o', reduce parse_step es (o, s) = Ok (o', s).
Proof.
  induction es as [|e es IH]; intros H o s; [now exists o|].
  destruct (H e (or_introl eq_refl) o s) as [o1 E].
  cbn [reduce]. rewrite E. cbn [bind].
  apply IH. intros e' He'. apply H. now right.
Qed.

(** *** Round trip of Unicode items *)

Lemma baggage_entry_of (o : object) (r k v e : jsstring) :
  obj_get o k = Some v -> baggage_entry (o, r) k = Ok e -> entry_of (k, v) e.
Proof.
  intros Hv H. unfold baggage_entry in H. cbn [fst] in H.
  rewrite Hv in H. cbn [to_string] in H.
  apply bind_Ok in H as (ek & Hek & H). apply bind_Ok in H as (ev & Hev & H).
  injection H as <-. now exists ek, ev.
Qed.

Lemma unbounded_reduce_entries (b : Baggage) (l : object) :
  (forall k v, In (k, v) l -> obj_get (fst b) k = Some v) ->
  forall init t,
    reduce (unbounded_step b) (keys l) init = Ok t ->
    exists es, Forall2 entry_of l es /\ t = fold_left append_entry es init.
Proof.
  destruct b as [o r]. cbn [fst].
  induction l as [|[k v] l IH]; intros Hl init t H; cbn [keys map reduce] in H.
  - inversion H. exists []. split; [constructor | reflexivity].
  - apply bind_Ok in H as (a & Hstep & H).
    unfold unbounded_step in Hstep. apply bind_Ok in Hstep as (e & He & Ea).
    inversion Ea; subst a.
    destruct (IH (fun k' v' H' => Hl k' v' (or_intror H')) _ _ H)
      as (es & Hes & ->).
    exists (e :: es). split; [|reflexivity]. constructor; [|assumption].
    apply (baggage_entry_of o r k v e); [|assumption]. apply Hl. now left.
Qed.

Lemma entry_of_key_val (k v e : jsstring) :
  entry_of (k, v) e -> well_formed k = true -> well_formed v = true ->
  exists ek ev,
    encodeURIComponent k = Ok ek /\ decodeURIComponent ek = Ok k
    /\ encodeURIComponent v = Ok ev /\ decodeURIComponent ev = Ok v
    /\ (In dash ek -> In dash k)
    /\ ~ In comma e /\ e <> []
    /\ key_val e = (SENTRY_BAGGAGE_KEY_PREFIX ++ ek, Some ev).
Proof.
  intros (ek & ev & Hek & Hev & ->) Hk Hv. cbn [fst snd] in *.
  destruct (encode_decode_well_formed k Hk) as (ek' & Hek' & Hdk & Hck).
  destruct (encode_decode_well_formed v Hv) as (ev' & Hev' & Hdv & Hcv).
  assert (ek' = ek) by congruence. assert (ev' = ev) by congruence.
  subst ek' ev'. exists ek, ev. repeat split; try assumption.
  - intros H. now apply (Hck dash H).
  - intros H. apply in_app_or in H as [H|H];
      [now apply prefix_has_no_comma|].
    apply in_app_or in H as [H|[H|H]];
      [now apply Hck in H | discriminate H | now apply Hcv in H].
  - discriminate.
  - rewrite app_assoc. rewrite <- (app_nil_r ev) at 1.
    apply key_val_two; [| |now left].
    + intros H. apply in_app_or in H as [H|H];
        [now apply prefix_has_no_equals | now apply Hck in H].
    + intros H. now apply Hcv in H.
Qed.

(** The parser on an entry that the serializer wrote for a well-formed key
    without a dash. *)
Lemma parse_step_entry_of (o : object) (s k v e : jsstring) :
  entry_of (k, v) e -> well_formed k = true -> well_formed v = true ->
  ~ In dash k ->
  parse_step (o, s) e = Ok (obj_set o k v, s).
Proof.
  intros He Hk Hv Hd.
  destruct (entry_of_key_val k v e He Hk Hv)
    as (ek & ev & _ & Hdk & _ & Hdv & Hdash & _ & _ & Hkv).
  rewrite (parse_step_stores o s e ek) by (tauto || now rewrite Hkv).
  rewrite Hkv, Hdk. cbn [snd to_string bind]. now rewrite Hdv.
Qed.

Lemma parse_entries_of (l : object) (es : list jsstring) :
  Forall2 entry_of l es ->
  (forall k v, In (k, v) l ->
     well_formed k = true /\ well_formed v = true /\ ~ In dash k) ->
  forall o s, reduce parse_step es (o, s) = Ok (assign o l, s).
Proof.
  induction 1 as [|[k v] e l es He _ IH]; intros Hl o s; [reflexivity|].
  destruct (Hl k v (or_introl eq_refl)) as (Hk & Hv & Hd).
  cbn [reduce]. rewrite (parse_step_entry_of o s k v e) by assumption.
  cbn [bind]. apply IH. intros k' v' H'. apply Hl. now right.
Qed.

Lemma entries_of_shape (l : object) (es : list jsstring) :
  Forall2 entry_of l es ->
  (forall k v, In (k, v) l -> well_formed k = true /\ well_formed v = true) ->
  forall e, In e es -> ~ In comma e /\ e <> [].
Proof.
  induction 1 as [|[k v] e l es He _ IH]; intros Hl e' He'; [destruct He'|].
  destruct He' as [<-|He'].
  - destruct (Hl k v (or_introl eq_refl)) as (Hk & Hv).
    destruct (entry_of_key_val k v e He Hk Hv)
      as (ek & ev & _ & _ & _ & _ & _ & H1 & H2 & _). auto.
  - apply IH; [|assumption]. intros k' v' H'. apply Hl. now right.
Qed.

(** X11: the round trip with a third-party part, for every text.  For
    items with distinct keys, whose keys and values are well-formed strings
    of code units (every surrogate in a pair) and whose keys contain no
    dash, and a third-party string without first-party segments that does
    not begin with a comma: when everything fits into 8192 characters,
    parsing the serialization gives back the third-party string unchanged
    and items with the same value at every key. *)
Theorem round_trip_with_third_party
  (items : object) (third t : jsstring) :
  NoDup (keys items) ->
  (forall k v, In (k, v) items ->
     well_formed k = true /\ well_formed v = true /\ ~ In dash k) ->
  (forall w, In w (split comma third) ->
             SENTRY_BAGGAGE_KEY_PREFIX_REGEX w = false) ->
  starts_with [comma] third = false ->
  unbounded_serialization (createBaggage items (Some third)) = Ok t ->
  str_length t <= MAX_BAGGAGE_STRING_LENGTH ->
  exists parsed,
    bind (serializeBaggage (createBaggage items (Some third)))
         parseBaggageString
    = Ok (parsed, third)
    /\ forall k, obj_get parsed k = obj_get items k.
Proof.
  intros Hnd Hitems Hthird Hstart Hunb Hlen.
  exists (assign [] items). split.
  - unfold serializeBaggage.
    rewrite (serialize_no_drop _ _ _ t Hunb Hlen). cbn [bind].
    unfold unbounded_serialization, createBaggage in Hunb.
    cbn [fst snd] in Hunb.
    apply (unbounded_reduce_entries (items, third) items) in Hunb
      as (es & Hes & ->);
      [|intros k v Hin; now apply obj_get_unique].
    apply parse_serialized.
    + intros w Hw. rewrite first_party_segment. now apply Hthird.
    + assumption.
    + apply (entries_of_shape items es Hes).
      intros k v Hin. destruct (Hitems k v Hin) as (Hk & Hv & _). auto.
    + now apply parse_entries_of.
  - intros k. unfold assign. rewrite obj_get_fold_set by assumption.
    now destruct (obj_get items k).
Qed.

Lemma round_trip_with_third_party_witness :
  exists parsed,
    bind (serializeBaggage
            (createBaggage [(js "user id", [0xE9; 0x3D; 0xD83D; 0xDE00])]
                           (Some (js "x=1,,y"))))
         parseBaggageString
    = Ok (parsed, js "x=1,,y")
    /\ forall k, obj_get parsed k
                 = obj_get [(js "user id", [0xE9; 0x3D; 0xD83D; 0xDE00])] k.
Proof.
  apply (round_trip_with_third_party _ _
           (js "x=1,,y,sentry-user%20id=%C3%A9%3D%F0%9F%98%80")).
  - repeat constructor; cbv; intuition discriminate.
  - intros k v [H|[]]; inversion H; subst.
    repeat split; try reflexivity. cbv; intuition discriminate.
  - intros w [<-|[<-|[<-|[]]]]; reflexivity.
  - reflexivity.
  - reflexivity.
  - vm_compute. discriminate.
Defined.

(** X7: for items with distinct keys, the serializer throws exactly when
    some key or value contains a surrogate that is not part of a pair; the
    sizes play no part in it, so an entry that would have been left out for
    its length still makes the call throw. *)
Theorem serialize_throws_on_unpaired_surrogate (baggage : Baggage) :
  NoDup (keys (fst baggage)) ->
  (forall k v, In (k, v) (fst baggage) -> code_units k /\ code_units v) ->
  (serializeBaggage baggage = Throw URIError
   <-> exists k v, In (k, v) (fst baggage)
                   /\ (well_formed k = false \/ well_formed v = false)).
Proof.
  intros Hnd Hunits. rewrite serialize_throws_iff. split.
  - intros (key & Hkey & H). destruct (obj_get_key _ _ Hkey) as [v Hv].
    pose proof (obj_get_In _ _ _ Hv) as Hin.
    destruct (Hunits key v Hin) as [Hk Hv'].
    exists key, v. split; [assumption|].
    rewrite Hv in H. cbn [to_string] in H.
    destruct H as [H|H]; [left | right]; now apply encode_throws_iff.
  - intros (k & v & Hin & H). destruct (Hunits k v Hin) as [Hk Hv].
    exists k. split; [change k with (fst (k, v)); now apply in_map|].
    rewrite (obj_get_unique _ k v Hnd Hin).
    cbn [to_string].
    destruct H as [H|H]; [left | right]; now apply encode_throws_iff.
Qed.

Lemma serialize_throws_on_unpaired_surrogate_witness :
  serializeBaggage ([(js "a", filler 9000); (js "b", [0xD83D])], js "")
  = Throw URIError.
Proof.
  apply serialize_throws_on_unpaired_surrogate.
  - repeat constructor; cbv; intuition discriminate.
  - intros k v [H|[H|[]]]; inversion H; subst; split;
      apply Forall_forall; intros c Hc;
      try (apply repeat_spec in Hc; subst c; reflexivity);
      repeat (destruct Hc as [<-|Hc]; [reflexivity|]); destruct Hc.
  - exists (js "b"), [0xD83D]. split; [right; left; reflexivity|].
    right. reflexivity.
Defined.

(** *** Parsing a merged header again *)

(** The parser never throws on an entry that the serializer wrote; it
    stores the value under the key, or under the part of the key before its
    first dash. *)
Lemma parse_step_entry_returns (o : object) (s k v e : jsstring) :
  entry_of (k, v) e -> well_formed k = true -> well_formed v = true ->
  exists stored, parse_step (o, s) e = Ok (obj_set o stored v, s).
Proof.
  intros He Hk Hv.
  destruct (entry_of_key_val k v e He Hk Hv)
    as (ek & ev & Hek & _ & _ & Hdv & _ & _ & _ & Hkv).
  destruct (split_encode k Hk ek Hek)
    as (w & ws & tw & tws & _ & Et & Hw & Ew).
  destruct (encode_decode_well_formed w Hw) as (tw' & Ew' & Hdw & _).
  assert (tw' = tw) by congruence. subst tw'.
  exists w. rewrite parse_step_unfold.
  rewrite (first_party_prefixed e ek) by now rewrite Hkv.
  rewrite Hkv. cbn [fst snd to_string].
  change (SENTRY_BAGGAGE_KEY_PREFIX ++ ek) with (js "sentry" ++ dash :: ek).
  rewrite split_app_one by exact prefix_has_no_dash_before.
  rewrite Et. cbn [nth_error to_string]. now rewrite Hdw, Hdv.
Qed.

Lemma kept_entries_of (b : Baggage) (ks es : list jsstring) :
  Forall2 (fun k e => baggage_entry b k = Ok e) ks es ->
  (forall k, In k ks -> In k (keys (fst b))) ->
  (forall k v, In (k, v) (fst b) -> code_units k /\ code_units v) ->
  forall e, In e es ->
    exists k v, entry_of (k, v) e
                /\ well_formed k = true /\ well_formed v = true.
Proof.
  destruct b as [o r]. cbn [fst].
  intros Hall. induction Hall as [|k e ks es He _ IH];
    intros Hks Hunits e' He'; [destruct He'|].
  destruct He' as [<-|He'].
  - destruct (obj_get_key o k (Hks k (or_introl eq_refl))) as [v Hv].
    destruct (Hunits k v (obj_get_In _ _ _ Hv)) as [Hk Hv'].
    pose proof (baggage_entry_of o r k v e Hv He) as Hentry.
    exists k, v. split; [assumption|].
    destruct Hentry as (ek & ev & Hek & Hev & _). cbn [fst snd] in *.
    split; eapply encode_well_formed; eassumption.
  - apply IH; [|assumption|assumption].
    intros k' Hk'. apply Hks. now right.
Qed.

(** X13: whenever a merge with a header returns, its result can be parsed
    again without an exception, and the third-party part is then the
    third-party part of the header that went into the merge, character for
    character. *)
Theorem merge_then_parse
  (incoming : option Baggage) (header r : jsstring) :
  (forall b k v, incoming = Some b -> In (k, v) (fst b) ->
                 code_units k /\ code_units v) ->
  mergeAndSerializeBaggage incoming (Some header) = Ok r ->
  exists headerBaggage parsed,
    parseBaggageString header = Ok headerBaggage
    /\ parseBaggageString r = Ok parsed
    /\ getThirdPartyBaggage parsed = getThirdPartyBaggage headerBaggage.
Proof.
  intros Hunits. rewrite merge_unfold_any. intros H.
  apply bind_Ok in H as ([o third] & Hparse & Hser).
  cbn [getThirdPartyBaggage snd] in Hser.
  set (items := match incoming with Some b => fst b | None => [] end) in *.
  assert (Hitems : forall k v, In (k, v) items -> code_units k /\ code_units v).
  { subst items. destruct incoming as [b|]; [|intros k v []].
    intros k v. now apply Hunits. }
  destruct (serialize_reduce_structure _ _ _ _ Hser)
    as (ks & es & Hsub & Hall & ->).
  cbn [createBaggage fst snd] in *.
  assert (Hes : forall e, In e es ->
            exists k v, entry_of (k, v) e
                        /\ well_formed k = true /\ well_formed v = true).
  { apply (kept_entries_of (items, third) ks es Hall); [|assumption].
    intros k Hk. now apply (subsequence_In ks). }
  destruct (parse_entries_return es) with (o := @nil (jsstring * jsstring))
                                         (s := third) as [o' Hred].
  { intros e He o1 s1. destruct (Hes e He) as (k & v & Hentry & Hk & Hv).
    destruct (parse_step_entry_returns o1 s1 k v e Hentry Hk Hv)
      as [stored E].
    eauto. }
  exists (o, third), (o', third). repeat split; [assumption|].
  apply parse_serialized.
  - intros w Hw. eapply parse_remainder_third_party; eassumption.
  - eapply parse_remainder_start; eassumption.
  - intros e He. destruct (Hes e He) as (k & v & Hentry & Hk & Hv).
    destruct (entry_of_key_val k v e Hentry Hk Hv)
      as (ek & ev & _ & _ & _ & _ & _ & H1 & H2 & _). auto.
  - assumption.
Qed.

Lemma merge_then_parse_witness :
  exists headerBaggage parsed,
    parseBaggageString (js ",x=1,sentry-a=evil,,y") = Ok headerBaggage
    /\ parseBaggageString (js "x=1,,y,sentry-trace-id=%C3%A9") = Ok parsed
    /\ getThirdPartyBaggage parsed = getThirdPartyBaggage headerBaggage.
Proof.
  apply (merge_then_parse (Some ([(js "trace-id", [0xE9])], js ""))).
  - intros b k v E Hin. inversion E; subst b.
    destruct Hin as [H|[]]. inversion H; subst.
    split; apply Forall_forall; intros c Hc;
      repeat (destruct Hc as [<-|Hc]; [reflexivity|]); destruct Hc.
  - reflexivity.
Defined.
